(** * duckdb-flyway: the migrations service

    A shallow embedding of [duckdb_flyway.py] ([MigrationsService]) and the
    properties of its engine: ordering validation, the transactional
    apply protocol, halting on failure and the bookkeeping in the
    [_migrations] table. *)

From stdpp Require Import base decidable option list sorting gmap strings.
From Stdlib Require Import ZArith Lia.

Local Open Scope Z_scope.
Local Open Scope stdpp_scope.

(** ** Python values the service works with *)

(** Python compares [str] values lexicographically by code point, a proper
    prefix being smaller; [String.compare] does the same on bytes. *)
Module Str.

Definition ltb (a b : string) : bool := String.ltb a b.
Definition leb (a b : string) : bool := String.leb a b.
Definition lt (a b : string) : Prop := ltb a b = true.
Definition le (a b : string) : Prop := leb a b = true.

End Str.

#[global] Instance Str_lt_dec : RelDecision Str.lt := λ a b, decide (Str.ltb a b = true).

(** The exceptions that occur: what a migration procedure raises, what the
    connection raises, what [os.listdir] raises, and the service's own
    [MigrationError], whose [cause] is the [__cause__] set by
    [raise ... from e]. *)
#[warnings="-register-all"]
Inductive exn : Type :=
| Exception (msg : string)
| CatalogException (msg : string)
| ConstraintException (msg : string)
| TransactionException (msg : string)
| ValueError (msg : string)
| FileNotFoundError (msg : string)
| MigrationError (msg : string) (cause : option exn).

(** [str(e)] *)
Definition str (e : exn) : string :=
  match e with
  | Exception msg | CatalogException msg | ConstraintException msg
  | TransactionException msg | ValueError msg | FileNotFoundError msg
  | MigrationError msg _ => msg
  end.

Inductive result (A : Type) : Type :=
| Ok (a : A)
| Raise (e : exn).
Arguments Ok {A} a.
Arguments Raise {A} e.

#[global] Instance result_ret : MRet result := λ A a, Ok a.
#[global] Instance result_bind : MBind result := λ A B f r,
  match r with
  | Ok a => f a
  | Raise e => Raise e
  end.

(** [sorted(l, key=key)]: Python's sort is stable, so the result is the
    one of a stable insertion sort. *)
Fixpoint insert_by {A : Type} (key : A → string) (x : A) (l : list A) : list A :=
  match l with
  | [] => [x]
  | y :: l' => if Str.leb (key x) (key y) then x :: y :: l' else y :: insert_by key x l'
  end.

Definition sorted {A : Type} (key : A → string) (l : list A) : list A :=
  foldr (insert_by key) [] l.

(** [max(xs)]: the first greatest element met; [ValueError] on an empty
    iterable. *)
Definition py_max (xs : list string) : result string :=
  match xs with
  | [] => Raise (ValueError "max() iterable argument is empty")
  | x :: xs' => Ok (fold_left (λ best y, if Str.ltb best y then y else best) xs' x)
  end.

(** [any(p(x) for x in l)] *)
Definition any {A : Type} (p : A → bool) (l : list A) : bool := existsb p l.

(** ** The database behind the connection *)

(** A row of [_migrations (id TEXT PRIMARY KEY, applied_at TIMESTAMP DEFAULT now())]. *)
Record Row := { row_id : string; applied_at : Z }.

(** The catalog: the tables the migrations manage, by name, and the
    [_migrations] table, absent or with its rows in insertion order. *)
Record DB := { tables : list string; _migrations : option (list Row) }.

(** A connection: the committed database, the working copy of the open
    transaction if there is one, and the reading [now()] gives, which is
    held fixed: the passing of time is outside the model. *)
Record Conn := { committed : DB; txn : option DB; clock : Z }.

(** The three statements the service sends:
    [CREATE TABLE IF NOT EXISTS _migrations (...)],
    [SELECT id FROM _migrations ORDER BY id] and
    [INSERT INTO _migrations (id) VALUES (?)].
    A statement that raises changes nothing; the messages stand for those
    of the database. The connection is an open one: that the connection
    itself fails (closed, out of reach) is not among the outcomes. *)
Inductive Stmt : Type :=
| CreateMigrationsTable
| SelectMigrationIds
| InsertMigration (i : string).

Definition exec_stmt (s : Stmt) (now : Z) (d : DB) : result (list string) * DB :=
  match s with
  | CreateMigrationsTable =>
      match _migrations d with
      | Some _ => (Ok [], d)
      | None => (Ok [], {| tables := tables d; _migrations := Some [] |})
      end
  | SelectMigrationIds =>
      match _migrations d with
      | Some rows => (Ok (sorted (λ i, i) (row_id <$> rows)), d)
      | None => (Raise (CatalogException "Table with name _migrations does not exist!"), d)
      end
  | InsertMigration i =>
      match _migrations d with
      | Some rows =>
          if decide (i ∈ row_id <$> rows)
          then (Raise (ConstraintException
                         ("Duplicate key " +:+ i +:+ " violates primary key constraint")), d)
          else (Ok [], {| tables := tables d;
                          _migrations := Some (rows ++ [{| row_id := i; applied_at := now |}]) |})
      | None => (Raise (CatalogException "Table with name _migrations does not exist!"), d)
      end
  end.

(** What statements see and change: the working copy inside a transaction,
    the committed database otherwise (autocommit). *)
Definition visible (c : Conn) : DB :=
  match txn c with
  | Some d => d
  | None => committed c
  end.

Definition set_visible (c : Conn) (d : DB) : Conn :=
  match txn c with
  | Some _ => {| committed := committed c; txn := Some d; clock := clock c |}
  | None => {| committed := d; txn := None; clock := clock c |}
  end.

(** What a migration procedure does with the connection it is handed:
    it executes statements on the managed tables (a function that returns
    the tables as the statements left them and the exception, if one
    raised), and it may begin, commit or roll back a transaction itself.
    A call that raises ends the procedure with that exception. *)
Inductive Call : Type :=
| CallExecute (statements : list string → list string * option exn)
| CallBegin
| CallCommit
| CallRollback.

(** Modelled from the spec: the [Migration] descriptor, whose module
    [migrations.types] is not among the sources. Section 3 gives it an
    [id] and a procedure [run] that takes the live connection, makes schema
    or data changes through it and either completes or raises. The record
    table belongs to the engine alone, so the statements of a procedure are
    on the managed tables; the transaction is within its reach, as the
    connection is. *)
Record Migration := {
  id : string;
  run : list Call
}.

(** ** The service: a connection and what was called on it *)

Inductive Level : Type := INFO | ERROR.

(** The calls the service makes on the connection and on migration
    procedures, as a mock would record them, and the lines it sends to the
    logger. *)
Inductive Event : Type :=
| EExecute (s : Stmt)
| EBegin
| ECommit
| ERollback
| ERun (i : string)
| ELog (lvl : Level) (msg : string).

#[global] Instance Level_eq_dec : EqDecision Level.
Proof. solve_decision. Defined.
#[global] Instance Stmt_eq_dec : EqDecision Stmt.
Proof. solve_decision. Defined.
#[global] Instance Event_eq_dec : EqDecision Event.
Proof. solve_decision. Defined.

Record World := { con : Conn; trace : list Event }.

Definition emit (e : Event) (c : Conn) (w : World) : World :=
  {| con := c; trace := trace w ++ [e] |}.

(** Computations that read and change the world and may raise. *)
Definition M (A : Type) : Type := World → result A * World.

#[global] Instance M_ret : MRet M := λ A a w, (Ok a, w).
#[global] Instance M_bind : MBind M := λ A B f m w,
  match m w with
  | (Ok a, w') => f a w'
  | (Raise e, w') => (Raise e, w')
  end.

Definition raise {A : Type} (e : exn) : M A := λ w, (Raise e, w).

Definition lift {A : Type} (r : result A) : M A := λ w, (r, w).

(** [try: body  except Exception as e: handler(e)] *)
Definition try_except {A : Type} (body : M A) (handler : exn → M A) : M A := λ w,
  match body w with
  | (Ok a, w') => (Ok a, w')
  | (Raise e, w') => handler e w'
  end.

Fixpoint for_each {A : Type} (l : list A) (body : A → M unit) : M unit :=
  match l with
  | [] => mret tt
  | x :: l' => body x;; for_each l' body
  end.

Definition log (lvl : Level) (msg : string) : M unit := λ w,
  (Ok tt, emit (ELog lvl msg) (con w) w).

(** [con.execute(stmt)] followed, for a query, by [fetchall()] *)
Definition execute (s : Stmt) : M (list string) := λ w,
  let '(r, d) := exec_stmt s (clock (con w)) (visible (con w)) in
  (r, emit (EExecute s) (set_visible (con w) d) w).

(** [con.begin()] *)
Definition begin : M unit := λ w,
  match txn (con w) with
  | Some _ =>
      (Raise (TransactionException "cannot start a transaction within a transaction"),
       emit EBegin (con w) w)
  | None =>
      (Ok tt, emit EBegin {| committed := committed (con w);
                             txn := Some (committed (con w));
                             clock := clock (con w) |} w)
  end.

(** [con.commit()]; without a transaction it does nothing. *)
Definition commit : M unit := λ w,
  match txn (con w) with
  | Some d =>
      (Ok tt, emit ECommit {| committed := d; txn := None; clock := clock (con w) |} w)
  | None => (Ok tt, emit ECommit (con w) w)
  end.

(** [con.rollback()] *)
Definition rollback : M unit := λ w,
  match txn (con w) with
  | Some _ =>
      (Ok tt, emit ERollback {| committed := committed (con w); txn := None;
                                clock := clock (con w) |} w)
  | None =>
      (Raise (TransactionException "cannot rollback - no transaction is active"),
       emit ERollback (con w) w)
  end.

(** A method of the connection, called by a procedure: the same method,
    without a record of the call. *)
Definition by_procedure (method : M unit) (c : Conn) : option exn * Conn :=
  match method {| con := c; trace := [] |} with
  | (Ok _, w) => (None, con w)
  | (Raise e, w) => (Some e, con w)
  end.

(** One call of a procedure. Statements act on what the connection shows;
    those issued before one raised have taken effect there. *)
Definition exec_call (k : Call) (c : Conn) : option exn * Conn :=
  match k with
  | CallExecute statements =>
      let d := visible c in
      let '(t, r) := statements (tables d) in
      (r, set_visible c {| tables := t; _migrations := _migrations d |})
  | CallBegin => by_procedure begin c
  | CallCommit => by_procedure commit c
  | CallRollback => by_procedure rollback c
  end.

Fixpoint exec_calls (p : list Call) (c : Conn) : option exn * Conn :=
  match p with
  | [] => (None, c)
  | k :: p' =>
      match exec_call k c with
      | (None, c') => exec_calls p' c'
      | (Some e, c') => (Some e, c')
      end
  end.

(** [migration.run(con)] *)
Definition call_run (m : Migration) : M unit := λ w,
  let '(r, c) := exec_calls (run m) (con w) in
  (match r with
   | None => Ok tt
   | Some e => Raise e
   end,
   emit (ERun (id m)) c w).

(** ** [MigrationsService] *)

Definition init_migrations_table : M unit :=
  execute CreateMigrationsTable;; mret tt.

Definition get_applied_migrations : M (list string) :=
  rows ← execute SelectMigrationIds; mret rows.

Definition validate_migration_order
    (migrations : list Migration) (applied : gset string) : result unit :=
  if decide (applied = ∅) then Ok tt
  else
    max_applied ← py_max (elements applied);
    let new_migrations := filter (λ m, id m ∉ applied) migrations in
    if any (λ m, Str.ltb (id m) max_applied) new_migrations
    then Raise (MigrationError
                  ("Found new migration(s) with ID lower than latest applied migration "
                   +:+ max_applied) None)
    else Ok tt.

Definition apply_migration (migration : Migration) : M unit :=
  log INFO ("Applying migration " +:+ id migration);;
  try_except
    (begin;;
     call_run migration;;
     execute (InsertMigration (id migration));;
     commit;;
     log INFO ("Successfully applied migration " +:+ id migration))
    (λ e,
     rollback;;
     log ERROR ("Failed to apply migration " +:+ id migration +:+ ": " +:+ str e);;
     raise (MigrationError ("Migration " +:+ id migration +:+ " failed: " +:+ str e) (Some e))).

Definition run_migrations (migrations : list Migration) : M unit :=
  try_except
    (init_migrations_table;;
     ids ← get_applied_migrations;
     let applied : gset string := list_to_set ids in
     lift (validate_migration_order migrations applied);;
     for_each (sorted id migrations)
       (λ migration,
        if decide (id migration ∉ applied) then apply_migration migration else mret tt))
    (λ e,
     log ERROR "Migration failed, application startup aborted";;
     raise (MigrationError "Failed to run migrations" (Some e))).

(** ** Discovery of migration files: [get_migrations] *)

(** [s.startswith(p)], [s.endswith(p)] and [s[:-n]] *)
Definition startswith (s p : string) : bool := String.prefix p s.

Definition endswith (s p : string) : bool :=
  (String.length p <=? String.length s)%nat &&
  String.eqb (String.substring (String.length s - String.length p) (String.length p) s) p.

Definition drop_last (n : nat) (s : string) : string :=
  String.substring 0 (String.length s - n) s.

(** [os.path.join(a, b)] on a POSIX system *)
Definition path_join (a b : string) : string :=
  if startswith b "/" then b
  else if String.eqb a "" || endswith a "/" then a +:+ b
  else a +:+ "/" +:+ b.

(** What importing a file gives: no spec or loader for it, an exception
    raised while its module executes, or a module, with or without an
    attribute [migration]. *)
Inductive PyFile : Type :=
| NoLoader
| ExecRaises (e : exn)
| PyModule (migration : option Migration).

(** A directory: what [os.listdir] gives, the names in the order it gives
    them or the exception it raises (no such directory, say), and the file
    behind each name. *)
Record Directory := { listdir : result (list string); file : string → PyFile }.

(** What [get_migrations] does besides returning: the modules it executes,
    by name and path, and the warnings it logs. *)
Inductive Discovery : Type :=
| ExecModule (name filepath : string)
| Warning (msg : string).

(** The body of the loop of [get_migrations], with the list [migrations]
    built so far. *)
Fixpoint load_files (migrations_dir : string) (file : string → PyFile)
    (filenames : list string) (migrations : list Migration) (seen : list Discovery)
    : result (list Migration) * list Discovery :=
  match filenames with
  | [] => (Ok migrations, seen)
  | filename :: rest =>
      if startswith filename "m" && endswith filename ".py"
         && negb (startswith filename "__")
      then
        let filepath := path_join migrations_dir filename in
        match file filename with
        | NoLoader => load_files migrations_dir file rest migrations seen
        | ExecRaises e =>
            (Raise e, seen ++ [ExecModule (drop_last 3 filename) filepath])
        | PyModule (Some migration) =>
            load_files migrations_dir file rest (migrations ++ [migration])
              (seen ++ [ExecModule (drop_last 3 filename) filepath])
        | PyModule None =>
            load_files migrations_dir file rest migrations
              (seen ++ [ExecModule (drop_last 3 filename) filepath;
                        Warning ("Migration file " +:+ filename
                                 +:+ " has no 'migration' export")])
        end
      else load_files migrations_dir file rest migrations seen
  end.

Definition get_migrations (migrations_dir : string) (d : Directory)
    : result (list Migration) * list Discovery :=
  match listdir d with
  | Ok filenames => load_files migrations_dir (file d) (sorted (λ n, n) filenames) [] []
  | Raise e => (Raise e, [])
  end.

(** A file name [get_migrations] takes for a migration file. *)
Definition migration_file (filename : string) : bool :=
  startswith filename "m" && endswith filename ".py".

(** The migration a file exports, if it does. *)
Definition exported (f : PyFile) : option Migration :=
  match f with
  | PyModule (Some m) => Some m
  | _ => None
  end.

(** The module of the file has no attribute [migration]. *)
Definition lacks_export (f : PyFile) : bool :=
  match f with
  | PyModule None => true
  | _ => false
  end.

(** The warnings among the events, and the modules executed, by file name
    (the module name with its extension back). *)
Definition warnings_of (seen : list Discovery) : list string :=
  omap (λ e, match e with Warning msg => Some msg | _ => None end) seen.

Definition executed_of (seen : list Discovery) : list string :=
  omap (λ e, match e with ExecModule name _ => Some (name +:+ ".py") | _ => None end) seen.

(** Executing the file raises. *)
Definition raises (f : PyFile) : Prop :=
  match f with
  | ExecRaises _ => True
  | _ => False
  end.

(** ** Vocabulary of the statements *)

(** [mx] is the greatest identifier of the set [s]. *)
Definition greatest (mx : string) (s : gset string) : Prop :=
  mx ∈ s ∧ ∀ x, x ∈ s → Str.le x mx.

(** The connection has no transaction open. *)
Definition idle (w : World) : Prop := txn (con w) = None.

(** The identifiers recorded in [_migrations]. *)
Definition applied_ids (d : DB) : list string :=
  match _migrations d with
  | Some rows => row_id <$> rows
  | None => []
  end.

(** The applied-set a run reads from the connection. *)
Definition applied_set (w : World) : gset string :=
  list_to_set (applied_ids (visible (con w))).

(** The migrations a run has to apply, in the order it takes them. *)
Definition pending (ms : list Migration) (applied : gset string) : list Migration :=
  filter (λ m, id m ∉ applied) (sorted id ms).

(** The identifiers of the procedures invoked, in order of invocation. *)
Definition runs_of (t : list Event) : list string :=
  omap (λ e, match e with ERun i => Some i | _ => None end) t.

(** The error [apply_migration] raises for the cause [e]. *)
Definition apply_failure (m : Migration) (e : exn) : exn :=
  MigrationError ("Migration " +:+ id m +:+ " failed: " +:+ str e) (Some e).

(** The error [run_migrations] raises for the cause [e]. *)
Definition run_failure (e : exn) : exn :=
  MigrationError "Failed to run migrations" (Some e).

(** The row [apply_migration] records for [m]. *)
Definition row_of (now : Z) (m : Migration) : Row :=
  {| row_id := id m; applied_at := now |}.

(** A connection on which a transaction has just begun over the tables
    [t]. *)
Definition begun (t : list string) : Conn :=
  {| committed := {| tables := t; _migrations := None |};
     txn := Some {| tables := t; _migrations := None |};
     clock := 0 |}.

(** What the procedure of [m] does when [apply_migration] calls it, in the
    transaction just begun over the tables [t]: the tables the connection
    shows when the procedure ends, and the exception, if it raised. *)
Definition in_transaction (m : Migration) (t : list string) : list string * option exn :=
  let '(r, c) := exec_calls (run m) (begun t) in (tables (visible c), r).

(** The procedure of [m] only executes statements: it does not begin,
    commit or roll back a transaction itself. *)
Definition only_statements (m : Migration) : Prop :=
  Forall (λ k, match k with CallExecute _ => True | _ => False end) (run m).

(** What a procedure can tell of a connection: the tables, committed and
    in the open transaction. *)
Definition view (c : Conn) : list string * option (list string) :=
  (tables (committed c), tables <$> txn c).

(** The working copy of the open transaction, if there is one, holds the
    records the committed database holds. *)
Definition synced (c : Conn) : Prop :=
  match txn c with
  | Some d => _migrations d = _migrations (committed c)
  | None => True
  end.

(** The error [con.rollback()] raises without a transaction. *)
Definition no_transaction : exn :=
  TransactionException "cannot rollback - no transaction is active".

(** How the procedure of [m] and the insert of its row can fail on the
    committed database [d]: [cause] is what the procedure raised, or what
    the insert raised after the procedure had completed. *)
Definition fails_with (m : Migration) (now : Z) (d : DB) (cause : exn) : Prop :=
  (∃ t, in_transaction m (tables d) = (t, Some cause)) ∨
  (∃ t d', in_transaction m (tables d) = (t, None) ∧
     exec_stmt (InsertMigration (id m)) now
       {| tables := t; _migrations := _migrations d |} = (Raise cause, d')).

(** The database once [init_migrations_table] has run on it. *)
Definition ensure_store (d : DB) : DB :=
  match _migrations d with
  | Some _ => d
  | None => {| tables := tables d; _migrations := Some [] |}
  end.

(** The world when [run_migrations] has created the store and read the
    applied identifiers. *)
Definition prelude (w : World) : World :=
  {| con := set_visible (con w) (ensure_store (visible (con w)));
     trace := trace w ++ [EExecute CreateMigrationsTable; EExecute SelectMigrationIds] |}.

(** The tables when the procedures of [l] have run in turn. *)
Definition effect (l : list Migration) (t : list string) : list string :=
  foldl (λ t m, (in_transaction m t).1) t l.

(** The events of an [apply_migration] that commits. *)
Definition commit_events (m : Migration) : list Event :=
  [ELog INFO ("Applying migration " +:+ id m);
   EBegin; ERun (id m); EExecute (InsertMigration (id m)); ECommit;
   ELog INFO ("Successfully applied migration " +:+ id m)].

(** The events of an [apply_migration] whose rollback raises, having made
    the calls [calls] after the procedure. *)
Definition escape_events (m : Migration) (calls : list Event) : list Event :=
  [ELog INFO ("Applying migration " +:+ id m); EBegin; ERun (id m)] ++ calls ++
  [ERollback].

(** The events of an [apply_migration] that rolls back, having made the
    calls [calls] after the procedure. *)
Definition rollback_events (m : Migration) (calls : list Event) (cause : exn) : list Event :=
  [ELog INFO ("Applying migration " +:+ id m); EBegin; ERun (id m)] ++ calls ++
  [ERollback; ELog ERROR ("Failed to apply migration " +:+ id m +:+ ": " +:+ str cause)].

(** What the [except] clause of [apply_migration] does when [cause] was
    raised with the connection at [c], after the events [t] and the calls
    [calls] that followed the procedure: with a transaction open it rolls
    back and raises the apply failure; without one its [rollback] raises. *)
Definition except_clause (m : Migration) (cause : exn) (c : Conn) (t calls : list Event)
    : result unit * World :=
  match txn c with
  | Some _ =>
      (Raise (apply_failure m cause),
       {| con := {| committed := committed c; txn := None; clock := clock c |};
          trace := t ++ rollback_events m calls cause |})
  | None =>
      (Raise no_transaction, {| con := c; trace := t ++ escape_events m calls |})
  end.

(** The committed database when the migrations of [l] have been applied to
    [d] at time [now]. *)
Definition applied_db (now : Z) (l : list Migration) (d : DB) : DB :=
  {| tables := effect l (tables d);
     _migrations := Some (default [] (_migrations d) ++ (row_of now <$> l)) |}.


(** One [run_migrations] after the other on the same connection, whatever
    each returns or raises. *)
Fixpoint run_many (batches : list (list Migration)) (w : World) : World :=
  match batches with
  | [] => w
  | ms :: batches' => run_many batches' (run_migrations ms w).2
  end.

(** How often [x] occurs in [l]. *)
Definition count {A : Type} `{!EqDecision A} (x : A) (l : list A) : nat :=
  length (filter (λ y, y = x) l).

(** How often the events [t] report that a migration with identifier [i]
    was applied, which [apply_migration] does once it has committed. *)
Definition successes (i : string) (t : list Event) : nat :=
  count (ELog INFO ("Successfully applied migration " +:+ i)) t.

(** Ascending by key, as [sorted] leaves a list. *)
Definition ascending {A : Type} (key : A → string) (l : list A) : Prop :=
  StronglySorted (λ a b, Str.le (key a) (key b)) l.

(** ** Sample data, from the test suite *)

Definition create_table (name : string) (t : list string) : list string * option exn :=
  if decide (name ∈ t)
  then (t, Some (CatalogException ("Table with name " +:+ name +:+ " already exists!")))
  else (t ++ [name], None).

Definition raise_exception (t : list string) : list string * option exn :=
  (t, Some (Exception "Migration failed")).

Definition empty_db : DB := {| tables := []; _migrations := None |}.

Definition fresh : World :=
  {| con := {| committed := empty_db; txn := None; clock := 1711000000 |}; trace := [] |}.

Definition ready : World :=
  {| con := {| committed := {| tables := []; _migrations := Some [] |};
               txn := None; clock := 1711000000 |};
     trace := [] |}.

(** A store in which [20240320000002] is recorded. *)
Definition applied2 : World :=
  {| con := {| committed :=
                 {| tables := ["test2"];
                    _migrations := Some [{| row_id := "20240320000002";
                                            applied_at := 1710000000 |}] |};
               txn := None; clock := 1711000000 |};
     trace := [] |}.

Definition m1 : Migration :=
  {| id := "20240320000001"; run := [CallExecute (create_table "test1")] |}.
Definition m2 : Migration :=
  {| id := "20240320000002"; run := [CallExecute (create_table "test2")] |}.
Definition m2_bad : Migration :=
  {| id := "20240320000002"; run := [CallExecute raise_exception] |}.
Definition m2_again : Migration :=
  {| id := "20240320000002"; run := [CallExecute (create_table "test2b")] |}.
Definition m1_twice : Migration :=
  {| id := "20240320000001";
     run := [CallExecute (create_table "test_table");
             CallExecute (create_table "test_table")] |}.

(** A procedure that creates a table, commits by itself, and then fails. *)
Definition m1_commits : Migration :=
  {| id := "20240320000001";
     run := [CallExecute (create_table "leak"); CallCommit; CallExecute raise_exception] |}.

(** A procedure that creates a table and commits by itself. *)
Definition m2_commits : Migration :=
  {| id := "20240320000002";
     run := [CallExecute (create_table "leak"); CallCommit] |}.

(** A migrations directory. *)
Definition sample_dir : Directory :=
  {| listdir := Ok ["m20240320000002_b.py"; "__init__.py"; "m20240320000001_a.py";
                    "types.py"; "m_notes.txt"; "m20240320000003_c.py"; "__pycache__"];
     file := λ n,
       if String.eqb n "m20240320000001_a.py" then
         PyModule (Some m1)
       else if String.eqb n "m20240320000002_b.py" then
         PyModule (Some m2)
       else PyModule None |}.

(** A path at which there is no directory. *)
Definition missing_dir : Directory :=
  {| listdir := Raise (FileNotFoundError "[Errno 2] No such file or directory: 'migrations'");
     file := λ _, NoLoader |}.

Definition m3 : Migration :=
  {| id := "20240320000003"; run := [CallExecute (create_table "test3")] |}.

(** ** The order on identifiers *)

Module StrFacts.

Lemma compare_refl a : String.compare a a = Eq.
Proof.
  induction a as [|c a IH]; simpl; [done|].
  unfold Ascii.compare. by rewrite N.compare_refl.
Qed.

Lemma ltb_leb a b : Str.ltb a b = negb (Str.leb b a).
Proof.
  unfold Str.ltb, Str.leb, String.ltb, String.leb.
  rewrite (String.compare_antisym a b).
  by destruct (String.compare b a).
Qed.

Lemma le_refl a : Str.le a a.
Proof. unfold Str.le, Str.leb, String.leb. by rewrite compare_refl. Qed.

Lemma le_trans a b c : Str.le a b → Str.le b c → Str.le a c.
Proof.
  unfold Str.le, Str.leb. intros Hab Hbc.
  apply Is_true_true. apply Is_true_true in Hab, Hbc.
  exact (transitivity (R := String.le) Hab Hbc).
Qed.

Lemma le_antisym a b : Str.le a b → Str.le b a → a = b.
Proof. apply String.leb_antisym. Qed.

Lemma le_total a b : Str.le a b ∨ Str.le b a.
Proof. apply String.leb_total. Qed.

Lemma lt_not_le a b : Str.lt a b ↔ ¬ Str.le b a.
Proof.
  unfold Str.lt, Str.le. rewrite ltb_leb.
  destruct (Str.leb b a); simpl; split; intros; done.
Qed.

Lemma lt_le a b : Str.lt a b → Str.le a b.
Proof.
  intros H%lt_not_le. destruct (le_total a b); [done|contradiction].
Qed.

Lemma lt_irrefl a : ¬ Str.lt a a.
Proof. intros H%lt_not_le. apply H, le_refl. Qed.

Lemma le_neq_lt a b : Str.le a b → a ≠ b → Str.lt a b.
Proof.
  intros Hab Hne. apply lt_not_le. intros Hba. by apply Hne, le_antisym.
Qed.

Lemma lt_le_trans a b c : Str.lt a b → Str.le b c → Str.lt a c.
Proof.
  intros Hab%lt_not_le Hbc. apply lt_not_le. intros Hca.
  apply Hab. by eapply le_trans.
Qed.

Lemma le_lt_trans a b c : Str.le a b → Str.lt b c → Str.lt a c.
Proof.
  intros Hab Hbc%lt_not_le. apply lt_not_le. intros Hca.
  apply Hbc. by eapply le_trans.
Qed.

Lemma ltb_false_le a b : Str.ltb a b = false → Str.le b a.
Proof.
  rewrite ltb_leb. unfold Str.le. by destruct (Str.leb b a).
Qed.

End StrFacts.

(** ** [max] and the ordering check *)

Lemma fold_max_spec (l : list string) (x : string) :
  let r := fold_left (λ best y, if Str.ltb best y then y else best) l x in
  r ∈ x :: l ∧ Str.le x r ∧ ∀ y, y ∈ l → Str.le y r.
Proof.
  revert x. induction l as [|y l IH]; intros x; simpl.
  - split; [by apply elem_of_cons; left|].
    split; [apply StrFacts.le_refl|]. intros y Hy. inversion Hy.
  - destruct (Str.ltb x y) eqn:Hxy.
    + destruct (IH y) as (Hin & Hle & Hall).
      split; [by apply elem_of_cons; right|]. split.
      * eapply StrFacts.le_trans; [|exact Hle]. by apply StrFacts.lt_le.
      * intros z Hz. apply elem_of_cons in Hz as [->|Hz]; auto.
    + destruct (IH x) as (Hin & Hle & Hall).
      split.
      { apply elem_of_cons in Hin as [Hin|Hin]; [by apply elem_of_cons; left|].
        by do 2 (apply elem_of_cons; right). }
      split; [done|].
      intros z Hz. apply elem_of_cons in Hz as [->|Hz]; auto.
      eapply StrFacts.le_trans; [|exact Hle]. by apply StrFacts.ltb_false_le.
Qed.

Lemma py_max_greatest (s : gset string) :
  s ≠ ∅ → ∃ mx, py_max (elements s) = Ok mx ∧ greatest mx s.
Proof.
  intros Hne. destruct (elements s) as [|x l] eqn:Hel.
  { apply elements_empty_inv in Hel. by apply leibniz_equiv in Hel. }
  simpl. eexists. split; [done|].
  destruct (fold_max_spec l x) as (Hin & Hle & Hall).
  split.
  - apply elem_of_elements. by rewrite Hel.
  - intros y Hy. apply elem_of_elements in Hy. rewrite Hel in Hy.
    apply elem_of_cons in Hy as [->|Hy]; auto.
Qed.

Lemma greatest_unique (s : gset string) (a b : string) :
  greatest a s → greatest b s → a = b.
Proof.
  intros [Ha Hla] [Hb Hlb]. apply StrFacts.le_antisym; auto.
Qed.

Lemma any_true {A : Type} (p : A → bool) (l : list A) :
  any p l = true ↔ ∃ x, x ∈ l ∧ p x = true.
Proof.
  unfold any. rewrite existsb_exists. setoid_rewrite list_elem_of_In. done.
Qed.

(** The outcome of the check when something has been applied. *)
Lemma validate_nonempty (ms : list Migration) (applied : gset string) (mx : string) :
  greatest mx applied →
  validate_migration_order ms applied =
    if any (λ m, Str.ltb (id m) mx) (filter (λ m, id m ∉ applied) ms)
    then Raise (MigrationError
                  ("Found new migration(s) with ID lower than latest applied migration "
                   +:+ mx) None)
    else Ok tt.
Proof.
  intros Hmx. unfold validate_migration_order.
  assert (applied ≠ ∅) as Hne by (destruct Hmx; set_solver).
  destruct (decide (applied = ∅)); [done|].
  destruct (py_max_greatest applied Hne) as (mx' & -> & Hmx').
  rewrite (greatest_unique _ _ _ Hmx' Hmx). done.
Qed.

(** C3. With nothing applied the ordering check accepts every collection.
    Otherwise, with [mx] the greatest applied identifier, it raises exactly
    when some candidate that is not applied has an identifier below [mx],
    and accepts otherwise. *)
Theorem validate_migration_order_spec (ms : list Migration) (applied : gset string) :
  (applied = ∅ → validate_migration_order ms applied = Ok tt) ∧
  (applied ≠ ∅ →
   ∃ mx, greatest mx applied ∧
     ((∃ m, m ∈ ms ∧ (id m ∉ applied) ∧ Str.lt (id m) mx) →
      validate_migration_order ms applied =
        Raise (MigrationError
                 ("Found new migration(s) with ID lower than latest applied migration "
                  +:+ mx) None)) ∧
     ((¬ ∃ m, m ∈ ms ∧ (id m ∉ applied) ∧ Str.lt (id m) mx) →
      validate_migration_order ms applied = Ok tt)).
Proof.
  split.
  - intros ->. unfold validate_migration_order. by destruct (decide _).
  - intros Hne. destruct (py_max_greatest applied Hne) as (mx & _ & Hmx).
    exists mx. split; [done|].
    rewrite (validate_nonempty ms applied mx Hmx).
    destruct (any _ _) eqn:Hany.
    + split; [done|]. intros Hno. exfalso. apply Hno.
      apply any_true in Hany as (m & Hm & Hlt).
      apply list_elem_of_filter in Hm as [Hnew Hm]. by exists m.
    + split; [|done]. intros (m & Hm & Hnew & Hlt).
      assert (any (λ m, Str.ltb (id m) mx) (filter (λ m, id m ∉ applied) ms) = true) as Ht.
      { apply any_true. exists m. split; [|done]. by apply list_elem_of_filter. }
      congruence.
Qed.

(** ** One migration *)

Ltac step_service :=
  unfold apply_migration, init_migrations_table, get_applied_migrations,
    try_except, mbind, M_bind, mret, M_ret, log, begin, call_run, execute,
    commit, rollback, raise, lift, emit, visible, set_visible;
  simpl.

Ltac step_call :=
  unfold exec_call, by_procedure, begin, commit, rollback, emit, visible, set_visible;
  simpl.

(** On a connection with a transaction open, [begin] raises and the
    handler rolls that transaction back. *)
Lemma apply_migration_busy (m : Migration) (w : World) (d : DB) :
  txn (con w) = Some d →
  let e := TransactionException "cannot start a transaction within a transaction" in
  apply_migration m w =
    (Raise (apply_failure m e),
     {| con := {| committed := committed (con w); txn := None; clock := clock (con w) |};
        trace := trace w ++
          [ELog INFO ("Applying migration " +:+ id m); EBegin; ERollback;
           ELog ERROR ("Failed to apply migration " +:+ id m +:+ ": " +:+ str e)] |}).
Proof.
  destruct w as [[cm tx ck] tr]. simpl. intros ->.
  step_service. unfold apply_failure. by rewrite <- !app_assoc.
Qed.

(** A call of a procedure leaves the records and the clock alone. *)
Lemma exec_call_records (k : Call) (c : Conn) :
  synced c →
  synced (exec_call k c).2 ∧
  _migrations (committed (exec_call k c).2) = _migrations (committed c) ∧
  clock (exec_call k c).2 = clock c.
Proof.
  destruct c as [cm [d|] ck]; unfold synced; simpl; intros Hs;
    destruct k as [f| | |]; step_call; try done.
  - by destruct (f (tables d)).
  - by destruct (f (tables cm)).
Qed.

Lemma exec_calls_records (p : list Call) (c : Conn) :
  synced c →
  synced (exec_calls p c).2 ∧
  _migrations (committed (exec_calls p c).2) = _migrations (committed c) ∧
  clock (exec_calls p c).2 = clock c.
Proof.
  revert c. induction p as [|k p IH]; intros c Hs; simpl; [done|].
  destruct (exec_call_records k c Hs) as (Hs' & Hrec & Hck).
  destruct (exec_call k c) as [[e|] c']; simpl in *; [done|].
  destruct (IH c' Hs') as (? & -> & ->). done.
Qed.

(** What a call returns and what it shows afterwards depend on the tables
    alone. *)
Lemma exec_call_view (k : Call) (c c' : Conn) :
  view c = view c' →
  (exec_call k c).1 = (exec_call k c').1 ∧
  view (exec_call k c).2 = view (exec_call k c').2.
Proof.
  intros Hv. pose proof (f_equal fst Hv) as Hcm. pose proof (f_equal snd Hv) as Hd.
  clear Hv. revert Hcm Hd.
  destruct c as [cm [d|] ck], c' as [cm' [d'|] ck']; unfold view; simpl;
    intros Hcm Hd; try done; try injection Hd as Hd;
    destruct k as [f| | |]; step_call; rewrite ?Hcm, ?Hd; try done.
  - destruct (f (tables d')). simpl. by rewrite Hcm.
  - by destruct (f (tables cm')).
Qed.

Lemma exec_calls_view (p : list Call) (c c' : Conn) :
  view c = view c' →
  (exec_calls p c).1 = (exec_calls p c').1 ∧
  view (exec_calls p c).2 = view (exec_calls p c').2.
Proof.
  revert c c'. induction p as [|k p IH]; intros c c' Hv; simpl; [done|].
  destruct (exec_call_view k c c' Hv) as [Hr Hv'].
  destruct (exec_call k c) as [[e|] c1], (exec_call k c') as [[e'|] c1'];
    simpl in *; try done.
  by apply IH.
Qed.

Lemma visible_view (c : Conn) : tables (visible c) = default (view c).1 (view c).2.
Proof. by destruct c as [cm [d|] ck]. Qed.

(** Statements alone neither end the transaction nor commit. *)
Lemma exec_calls_only_statements (p : list Call) (c : Conn) :
  Forall (λ k, match k with CallExecute _ => True | _ => False end) p →
  is_Some (txn c) →
  committed (exec_calls p c).2 = committed c ∧ is_Some (txn (exec_calls p c).2).
Proof.
  intros Hp. revert c. induction Hp as [|k p Hk Hp IH]; intros c Htx; simpl; [done|].
  destruct k as [f| | |]; try done.
  destruct c as [cm [d|] ck]; [|by destruct Htx]. step_call.
  destruct (f (tables d)) as [t [e|]]; simpl; [done|].
  by destruct (IH {| committed := cm; txn := Some {| tables := t; _migrations := _migrations d |};
                     clock := ck |}).
Qed.

(** The procedure of [m], called in the transaction [apply_migration] has
    begun on [c]. *)
Lemma call_run_begun (m : Migration) (c : Conn) :
  ∃ c2,
    exec_calls (run m)
      {| committed := committed c; txn := Some (committed c); clock := clock c |} =
      ((in_transaction m (tables (committed c))).2, c2) ∧
    visible c2 = {| tables := (in_transaction m (tables (committed c))).1;
                    _migrations := _migrations (committed c) |} ∧
    _migrations (committed c2) = _migrations (committed c) ∧
    clock c2 = clock c ∧
    (only_statements m → committed c2 = committed c ∧ is_Some (txn c2)).
Proof.
  set (c1 := {| committed := committed c; txn := Some (committed c); clock := clock c |}).
  assert (synced c1) as Hs by done.
  destruct (exec_calls_records (run m) c1 Hs) as (Hs2 & Hrec & Hck).
  assert (view c1 = view (begun (tables (committed c)))) as Hv by done.
  destruct (exec_calls_view (run m) _ _ Hv) as [Hr Hv2].
  unfold in_transaction.
  destruct (exec_calls (run m) (begun (tables (committed c)))) as [r' c2'].
  destruct (exec_calls (run m) c1) as [r c2] eqn:Hrun. simpl in *. subst r'.
  exists c2. split; [done|]. split.
  - assert (tables (visible c2) = tables (visible c2')) as Ht
      by (by rewrite !visible_view, Hv2).
    rewrite <- Ht. clear -Hs2 Hrec.
    destruct c2 as [cm2 [d2|] ck2]; unfold synced, visible in *; simpl in *.
    + destruct d2. simpl in *. congruence.
    + destruct cm2. simpl in *. congruence.
  - split; [done|]. split; [done|]. intros Hm.
    assert (is_Some (txn c1)) as Htx by (by eexists).
    pose proof (exec_calls_only_statements (run m) c1 Hm Htx) as H.
    by rewrite Hrun in H.
Qed.

(** What [apply_migration] does on an idle connection, with [c2] the
    connection as the procedure leaves it. *)
Lemma apply_migration_idle (m : Migration) (w : World) :
  idle w →
  ∃ c2,
    _migrations (committed c2) = _migrations (committed (con w)) ∧
    clock c2 = clock (con w) ∧
    (only_statements m → committed c2 = committed (con w) ∧ is_Some (txn c2)) ∧
    apply_migration m w =
      match (in_transaction m (tables (committed (con w)))).2 with
      | Some cause => except_clause m cause c2 (trace w) []
      | None =>
          match exec_stmt (InsertMigration (id m)) (clock (con w))
                  {| tables := (in_transaction m (tables (committed (con w)))).1;
                     _migrations := _migrations (committed (con w)) |} with
          | (Ok _, d) =>
              (Ok tt,
               {| con := {| committed := d; txn := None; clock := clock (con w) |};
                  trace := trace w ++ commit_events m |})
          | (Raise cause, _) =>
              except_clause m cause c2 (trace w) [EExecute (InsertMigration (id m))]
          end
      end.
Proof.
  destruct w as [c tr]. unfold idle. cbn [con trace]. intros Hidle.
  destruct (call_run_begun m c) as (c2 & Hrun & Hvis & Hrec & Hck & Honly).
  exists c2. split; [done|]. split; [done|]. split; [done|].
  destruct c as [cm tx ck]. cbn [committed txn clock] in *. subst tx.
  unfold apply_migration, try_except, mbind, M_bind, log, begin, call_run, emit.
  cbn -[exec_stmt in_transaction]. rewrite Hrun.
  destruct ((in_transaction m (tables cm)).2) as [cause|]; cbn -[exec_stmt in_transaction].
  - unfold except_clause, rollback_events, escape_events, rollback, raise, emit.
    cbn. destruct (txn c2); cbn; by rewrite <- !app_assoc.
  - unfold execute at 1. cbn -[exec_stmt in_transaction]. rewrite Hvis, Hck.
    destruct (exec_stmt (InsertMigration (id m)) ck
                {| tables := (in_transaction m (tables cm)).1;
                   _migrations := _migrations cm |}) as [[l|cause] d] eqn:Hins.
    + unfold emit, commit, set_visible, commit_events. cbn.
      destruct (txn c2); cbn; rewrite Hck; by rewrite <- !app_assoc.
    + assert (d = visible c2) as ->.
      { rewrite Hvis. simpl in Hins.
        destruct (_migrations cm); [destruct (decide _)|]; congruence. }
      assert (set_visible c2 (visible c2) = c2) as ->
        by (clear; by destruct c2 as [? [?|] ?]).
      unfold except_clause, rollback_events, escape_events, rollback, raise, emit.
      cbn. destruct (txn c2); cbn; by rewrite <- !app_assoc.
Qed.

(** The insert, by cases. *)
Lemma insert_ok (i : string) (now : Z) (d : DB) (l : list string) (d' : DB) :
  exec_stmt (InsertMigration i) now d = (Ok l, d') →
  ∃ rows, _migrations d = Some rows ∧ (i ∉ row_id <$> rows) ∧
    d' = {| tables := tables d;
            _migrations := Some (rows ++ [{| row_id := i; applied_at := now |}]) |}.
Proof.
  simpl. destruct (_migrations d) as [rows|]; [|done].
  destruct (decide _); [done|]. intros [= <- <-]. by exists rows.
Qed.

Lemma insert_raises (i : string) (now : Z) (d : DB) (e : exn) (d' : DB) :
  exec_stmt (InsertMigration i) now d = (Raise e, d') →
  d' = d ∧
  ((_migrations d = None ∧
    e = CatalogException "Table with name _migrations does not exist!") ∨
   (i ∈ applied_ids d ∧
    e = ConstraintException ("Duplicate key " +:+ i +:+ " violates primary key constraint"))).
Proof.
  unfold applied_ids. simpl. destruct (_migrations d) as [rows|].
  - destruct (decide _); [|done]. intros [= <- <-]. split; [done|]. by right.
  - intros [= <- <-]. split; [done|]. by left.
Qed.

(** On an idle connection the procedure completes and the insert goes
    through: commit. *)
Lemma apply_migration_commits
    (m : Migration) (w : World) (t : list string) (l : list string) (d : DB) :
  idle w →
  in_transaction m (tables (committed (con w))) = (t, None) →
  exec_stmt (InsertMigration (id m)) (clock (con w))
    {| tables := t; _migrations := _migrations (committed (con w)) |} = (Ok l, d) →
  apply_migration m w =
    (Ok tt,
     {| con := {| committed := d; txn := None; clock := clock (con w) |};
        trace := trace w ++
          [ELog INFO ("Applying migration " +:+ id m); EBegin; ERun (id m);
           EExecute (InsertMigration (id m)); ECommit;
           ELog INFO ("Successfully applied migration " +:+ id m)] |}).
Proof.
  intros Hidle Hrun Hins.
  destruct (apply_migration_idle m w Hidle) as (c2 & _ & _ & _ & ->).
  rewrite Hrun. cbn [fst snd]. by rewrite Hins.
Qed.

(** The two ways of the [except] clause. *)
Lemma except_clause_cases (m : Migration) (cause : exn) (c : Conn) (t calls : list Event) :
  (is_Some (txn c) ∧
   except_clause m cause c t calls =
     (Raise (apply_failure m cause),
      {| con := {| committed := committed c; txn := None; clock := clock c |};
         trace := t ++ rollback_events m calls cause |})) ∨
  (txn c = None ∧
   except_clause m cause c t calls =
     (Raise no_transaction, {| con := c; trace := t ++ escape_events m calls |})).
Proof.
  unfold except_clause. destruct (txn c) as [d|]; [left|right]; by eauto.
Qed.

(** With a procedure that leaves the transaction alone, the [except]
    clause restores the connection. *)
Lemma except_clause_only_statements
    (m : Migration) (cause : exn) (w : World) (c : Conn) (calls : list Event) :
  idle w →
  clock c = clock (con w) →
  committed c = committed (con w) ∧ is_Some (txn c) →
  except_clause m cause c (trace w) calls =
    (Raise (apply_failure m cause),
     {| con := con w; trace := trace w ++ rollback_events m calls cause |}).
Proof.
  destruct w as [[cm tx ck] tr]. unfold idle, except_clause. cbn.
  intros -> Hck [Hcm [d Hd]]. by rewrite Hd, Hcm, Hck.
Qed.

(** What [apply_migration] does on an idle connection: it commits the
    effect of the procedure together with the row, or the procedure or the
    insert raises and the [except] clause takes over, with [c2] the
    connection as the procedure left it. *)
Lemma apply_migration_cases (m : Migration) (w : World) :
  idle w →
  (∃ t rows,
     in_transaction m (tables (committed (con w))) = (t, None) ∧
     _migrations (committed (con w)) = Some rows ∧
     (id m ∉ row_id <$> rows) ∧
     apply_migration m w =
       (Ok tt,
        {| con := {| committed := {| tables := t;
                                     _migrations := Some (rows ++ [row_of (clock (con w)) m]) |};
                     txn := None; clock := clock (con w) |};
           trace := trace w ++
             [ELog INFO ("Applying migration " +:+ id m); EBegin; ERun (id m);
              EExecute (InsertMigration (id m)); ECommit;
              ELog INFO ("Successfully applied migration " +:+ id m)] |})) ∨
  (∃ cause calls c2,
     fails_with m (clock (con w)) (committed (con w)) cause ∧
     (calls = [] ∨ calls = [EExecute (InsertMigration (id m))]) ∧
     _migrations (committed c2) = _migrations (committed (con w)) ∧
     clock c2 = clock (con w) ∧
     (only_statements m → committed c2 = committed (con w) ∧ is_Some (txn c2)) ∧
     apply_migration m w = except_clause m cause c2 (trace w) calls).
Proof.
  intros Hidle.
  destruct (apply_migration_idle m w Hidle) as (c2 & Hrec & Hck & Honly & Heq).
  destruct (in_transaction m (tables (committed (con w)))) as [t [e|]] eqn:Hrun;
    cbn [fst snd] in Heq.
  - right. exists e, [], c2. split; [left; by exists t|]. split; [by left|]. done.
  - destruct (exec_stmt (InsertMigration (id m)) (clock (con w))
                {| tables := t; _migrations := _migrations (committed (con w)) |})
      as [[l|e] d] eqn:Hins.
    + left. destruct (insert_ok _ _ _ _ _ Hins) as (rows & Hrows & Hnew & ->).
      simpl in *. by exists t, rows.
    + right. exists e, [EExecute (InsertMigration (id m))], c2.
      split; [right; by exists t, d|]. split; [by right|]. done.
Qed.

(** With a procedure that leaves the transaction alone: commit, or
    rollback to the connection as it was and the apply failure. *)
Lemma apply_migration_cases_only_statements (m : Migration) (w : World) :
  idle w →
  only_statements m →
  (∃ t rows,
     in_transaction m (tables (committed (con w))) = (t, None) ∧
     _migrations (committed (con w)) = Some rows ∧
     (id m ∉ row_id <$> rows) ∧
     apply_migration m w =
       (Ok tt,
        {| con := {| committed := {| tables := t;
                                     _migrations := Some (rows ++ [row_of (clock (con w)) m]) |};
                     txn := None; clock := clock (con w) |};
           trace := trace w ++
             [ELog INFO ("Applying migration " +:+ id m); EBegin; ERun (id m);
              EExecute (InsertMigration (id m)); ECommit;
              ELog INFO ("Successfully applied migration " +:+ id m)] |})) ∨
  (∃ cause calls,
     fails_with m (clock (con w)) (committed (con w)) cause ∧
     (calls = [] ∨ calls = [EExecute (InsertMigration (id m))]) ∧
     apply_migration m w =
       (Raise (apply_failure m cause),
        {| con := con w;
           trace := trace w ++
             [ELog INFO ("Applying migration " +:+ id m); EBegin; ERun (id m)] ++
             calls ++
             [ERollback;
              ELog ERROR ("Failed to apply migration " +:+ id m +:+ ": " +:+ str cause)] |})).
Proof.
  intros Hidle Hm.
  destruct (apply_migration_cases m w Hidle)
    as [Hok|(cause & calls & c2 & Hfail & Hcalls & _ & Hck & Honly & Heq)]; [by left|].
  right. exists cause, calls. split; [done|]. split; [done|].
  rewrite Heq. by apply except_clause_only_statements; [| |apply Honly].
Qed.

(** On an idle connection the procedure raises without having touched the
    transaction: rollback. *)
Lemma apply_migration_run_raises (m : Migration) (w : World) (t : list string) (e : exn) :
  idle w →
  only_statements m →
  in_transaction m (tables (committed (con w))) = (t, Some e) →
  apply_migration m w =
    (Raise (apply_failure m e),
     {| con := con w;
        trace := trace w ++
          [ELog INFO ("Applying migration " +:+ id m); EBegin; ERun (id m); ERollback;
           ELog ERROR ("Failed to apply migration " +:+ id m +:+ ": " +:+ str e)] |}).
Proof.
  intros Hidle Hm Hrun.
  destruct (apply_migration_idle m w Hidle) as (c2 & _ & Hck & Honly & ->).
  rewrite Hrun. cbn [fst snd].
  by rewrite (except_clause_only_statements m e w c2 [] Hidle Hck (Honly Hm)).
Qed.

(** On an idle connection the procedure completes without having touched
    the transaction and the insert raises: rollback. *)
Lemma apply_migration_insert_raises
    (m : Migration) (w : World) (t : list string) (e : exn) (d : DB) :
  idle w →
  only_statements m →
  in_transaction m (tables (committed (con w))) = (t, None) →
  exec_stmt (InsertMigration (id m)) (clock (con w))
    {| tables := t; _migrations := _migrations (committed (con w)) |} = (Raise e, d) →
  apply_migration m w =
    (Raise (apply_failure m e),
     {| con := con w;
        trace := trace w ++
          [ELog INFO ("Applying migration " +:+ id m); EBegin; ERun (id m);
           EExecute (InsertMigration (id m)); ERollback;
           ELog ERROR ("Failed to apply migration " +:+ id m +:+ ": " +:+ str e)] |}).
Proof.
  intros Hidle Hm Hrun Hins.
  destruct (apply_migration_idle m w Hidle) as (c2 & _ & Hck & Honly & ->).
  rewrite Hrun. cbn [fst snd]. rewrite Hins.
  by rewrite (except_clause_only_statements m e w c2 _ Hidle Hck (Honly Hm)).
Qed.

(** On an idle connection the procedure completes and the insert raises:
    the [except] clause, from the connection as the procedure left it. *)
Lemma apply_migration_insert_except
    (m : Migration) (w : World) (t : list string) (e : exn) (d : DB) :
  idle w →
  in_transaction m (tables (committed (con w))) = (t, None) →
  exec_stmt (InsertMigration (id m)) (clock (con w))
    {| tables := t; _migrations := _migrations (committed (con w)) |} = (Raise e, d) →
  ∃ c2,
    _migrations (committed c2) = _migrations (committed (con w)) ∧
    clock c2 = clock (con w) ∧
    apply_migration m w =
      except_clause m e c2 (trace w) [EExecute (InsertMigration (id m))].
Proof.
  intros Hidle Hrun Hins.
  destruct (apply_migration_idle m w Hidle) as (c2 & Hrec & Hck & _ & ->).
  rewrite Hrun. cbn [fst snd]. rewrite Hins. by exists c2.
Qed.

(** A failing [apply_migration] on an idle connection, whatever the
    procedure did: no transaction is left open, no record was added, the
    procedure was invoked once and no success is reported. *)
Lemma apply_migration_raises (m : Migration) (w w' : World) (e : exn) :
  idle w →
  apply_migration m w = (Raise e, w') →
  idle w' ∧
  clock (con w') = clock (con w) ∧
  _migrations (committed (con w')) = _migrations (committed (con w)) ∧
  ∃ cause calls,
    fails_with m (clock (con w)) (committed (con w)) cause ∧
    (calls = [] ∨ calls = [EExecute (InsertMigration (id m))]) ∧
    ((e = apply_failure m cause ∧ trace w' = trace w ++ rollback_events m calls cause) ∨
     (e = no_transaction ∧ trace w' = trace w ++ escape_events m calls)) ∧
    (only_statements m →
     con w' = con w ∧ e = apply_failure m cause ∧
     trace w' = trace w ++ rollback_events m calls cause).
Proof.
  intros Hidle Happ.
  destruct (apply_migration_cases m w Hidle)
    as [(t & rows & _ & _ & _ & Heq)
       |(cause & calls & c2 & Hfail & Hcalls & Hrec & Hck & Honly & Heq)];
    rewrite Heq in Happ; [done|].
  assert (idle w' ∧ clock (con w') = clock (con w) ∧
          _migrations (committed (con w')) = _migrations (committed (con w)) ∧
          ((e = apply_failure m cause ∧ trace w' = trace w ++ rollback_events m calls cause) ∨
           (e = no_transaction ∧ trace w' = trace w ++ escape_events m calls)))
    as (Hidle' & Hck' & Hrec' & Hhow).
  { destruct (except_clause_cases m cause c2 (trace w) calls) as [[_ Hc]|[Hnone Hc]];
      rewrite Hc in Happ; injection Happ as <- <-; unfold idle; cbn; eauto 10. }
  split; [done|]. split; [done|]. split; [done|].
  exists cause, calls. split; [done|]. split; [done|]. split; [done|].
  intros Hm.
  rewrite (except_clause_only_statements m cause w c2 calls Hidle Hck (Honly Hm)) in Happ.
  by injection Happ as <- <-.
Qed.

(** An [apply_migration] that returns, on an idle connection. *)
Lemma apply_migration_ok (m : Migration) (w w' : World) :
  idle w →
  apply_migration m w = (Ok tt, w') →
  ∃ t rows,
    in_transaction m (tables (committed (con w))) = (t, None) ∧
    _migrations (committed (con w)) = Some rows ∧
    (id m ∉ row_id <$> rows) ∧
    w' = {| con := {| committed := {| tables := t;
                                      _migrations := Some (rows ++ [row_of (clock (con w)) m]) |};
                      txn := None; clock := clock (con w) |};
            trace := trace w ++ commit_events m |}.
Proof.
  intros Hidle Happ.
  destruct (apply_migration_cases m w Hidle)
    as [(t & rows & Hrun & Hrows & Hnew & Heq)|(cause & calls & c2 & _ & _ & _ & _ & _ & Heq)];
    rewrite Heq in Happ.
  - injection Happ as <-. by exists t, rows.
  - by destruct (except_clause_cases m cause c2 (trace w) calls) as [[_ Hc]|[_ Hc]];
      rewrite Hc in Happ.
Qed.

(** C1, as the claim states it, fails for a procedure that commits by
    itself: [m1_commits] creates a table, commits and raises. The handler's
    [rollback] then finds no transaction and raises; that error, not an
    apply failure, reaches the caller, and the table stays committed. *)
Lemma procedure_commits_then_raises :
  idle ready ∧
  in_transaction m1_commits (tables (committed (con ready))) =
    (["leak"], Some (Exception "Migration failed")) ∧
  apply_migration m1_commits ready =
    (Raise (TransactionException "cannot rollback - no transaction is active"),
     {| con := {| committed := {| tables := ["leak"]; _migrations := Some [] |};
                  txn := None; clock := 1711000000 |};
        trace := [ELog INFO "Applying migration 20240320000001"; EBegin;
                  ERun "20240320000001"; ERollback] |}).
Proof. vm_compute. done. Qed.

(** C1. When the procedure leaves the transaction alone (it does not
    begin, commit or roll back itself), a failing [apply_migration] on a
    connection where the transaction can begin (the procedure raises, or the
    insert of the row raises) rolls back: the connection is as before the
    call, so neither the procedure's effects nor a row for the migration
    persist, nothing was committed, and the error raised carries the
    identifier and the cause. *)
Theorem apply_migration_failure_rolls_back (m : Migration) (w w' : World) (e : exn) :
  idle w →
  only_statements m →
  apply_migration m w = (Raise e, w') →
  con w' = con w ∧
  ∃ cause calls,
    fails_with m (clock (con w)) (committed (con w)) cause ∧
    e = MigrationError ("Migration " +:+ id m +:+ " failed: " +:+ str cause) (Some cause) ∧
    (ECommit ∉ calls) ∧
    trace w' = trace w ++
      [ELog INFO ("Applying migration " +:+ id m); EBegin; ERun (id m)] ++ calls ++
      [ERollback;
       ELog ERROR ("Failed to apply migration " +:+ id m +:+ ": " +:+ str cause)].
Proof.
  intros Hidle Hm Happ.
  destruct (apply_migration_cases_only_statements m w Hidle Hm)
    as [(t & rows & _ & _ & _ & Heq)|(cause & calls & Hfail & Hcalls & Heq)];
    rewrite Heq in Happ; [done|].
  injection Happ as <- <-. split; [done|].
  exists cause, calls. repeat split; try done.
  destruct Hcalls as [-> | ->]; [apply not_elem_of_nil|].
  intros Hin. apply list_elem_of_singleton in Hin. discriminate.
Qed.

(** [m1_twice] has created its table when the second statement raises;
    the table is gone after the rollback. *)
Lemma apply_migration_failure_rolls_back_witness :
  idle ready ∧
  only_statements m1_twice ∧
  in_transaction m1_twice (tables (committed (con ready))) =
    (["test_table"],
     Some (CatalogException "Table with name test_table already exists!")) ∧
  apply_migration m1_twice ready =
    (Raise (apply_failure m1_twice
              (CatalogException "Table with name test_table already exists!")),
     (apply_migration m1_twice ready).2) ∧
  con (apply_migration m1_twice ready).2 = con ready.
Proof.
  assert (idle ready) as Hidle by reflexivity.
  assert (only_statements m1_twice) as Hm by (repeat constructor).
  assert (apply_migration m1_twice ready =
            (Raise (apply_failure m1_twice
                      (CatalogException "Table with name test_table already exists!")),
             (apply_migration m1_twice ready).2)) as Happ by (vm_compute; reflexivity).
  split; [exact Hidle|]. split; [exact Hm|]. split; [vm_compute; reflexivity|].
  split; [exact Happ|].
  exact (proj1 (apply_migration_failure_rolls_back m1_twice ready _ _ Hidle Hm Happ)).
Defined.

(** C6, as the claim states it, fails for a procedure that commits by
    itself: [m2_commits] creates a table and commits; the insert of the row
    then raises, for want of the store, and the table is committed without
    a row. *)
Lemma effect_committed_without_row :
  in_transaction m2_commits (tables (committed (con fresh))) = (["leak"], None) ∧
  apply_migration m2_commits fresh =
    (Raise (TransactionException "cannot rollback - no transaction is active"),
     {| con := {| committed := {| tables := ["leak"]; _migrations := None |};
                  txn := None; clock := 1711000000 |};
        trace := [ELog INFO "Applying migration 20240320000002"; EBegin;
                  ERun "20240320000002"; EExecute (InsertMigration "20240320000002");
                  ERollback] |}).
Proof. vm_compute. done. Qed.

(** C6. A successful [apply_migration] has made exactly these calls, in
    this order: begin, the procedure, the insert of the row, commit; and it
    has committed the tables as the procedure left them and the row
    together. When it raises instead, no row has been committed and no
    transaction is left open; and when the procedure leaves the transaction
    alone, the committed database is the one before the call, so that
    neither is committed without the other. *)
Theorem apply_migration_protocol (m : Migration) (w w' : World) (r : result unit) :
  apply_migration m w = (r, w') →
  match r with
  | Ok _ =>
      idle w ∧
      trace w' = trace w ++
        [ELog INFO ("Applying migration " +:+ id m);
         EBegin; ERun (id m); EExecute (InsertMigration (id m)); ECommit;
         ELog INFO ("Successfully applied migration " +:+ id m)] ∧
      ∃ t rows,
        in_transaction m (tables (committed (con w))) = (t, None) ∧
        _migrations (committed (con w)) = Some rows ∧
        (id m ∉ row_id <$> rows) ∧
        con w' = {| committed :=
                      {| tables := t;
                         _migrations := Some (rows ++ [{| row_id := id m;
                                                          applied_at := clock (con w) |}]) |};
                    txn := None;
                    clock := clock (con w) |}
  | Raise _ =>
      _migrations (committed (con w')) = _migrations (committed (con w)) ∧
      txn (con w') = None ∧
      (only_statements m → committed (con w') = committed (con w))
  end.
Proof.
  intros Happ. destruct (txn (con w)) as [d|] eqn:Htxn.
  - rewrite (apply_migration_busy m w d Htxn) in Happ.
    injection Happ as <- <-. done.
  - destruct r as [[]|e].
    + destruct (apply_migration_cases m w Htxn)
        as [(t & rows & Hrun & Hrows & Hnew & Heq)|(cause & calls & c2 & _ & _ & _ & _ & _ & Heq)];
        rewrite Heq in Happ.
      * injection Happ as <-. split; [done|]. split; [done|]. by exists t, rows.
      * by destruct (except_clause_cases m cause c2 (trace w) calls) as [[_ Hc]|[_ Hc]];
          rewrite Hc in Happ.
    + destruct (apply_migration_raises m w w' e Htxn Happ)
        as (Hidle' & _ & Hrec & cause & calls & _ & _ & _ & Honly).
      split; [done|]. split; [done|]. intros Hm.
      destruct (Honly Hm) as (-> & _). done.
Qed.

Lemma apply_migration_protocol_witness :
  apply_migration m1 ready = (Ok tt, (apply_migration m1 ready).2) ∧
  trace (apply_migration m1 ready).2 =
    [ELog INFO "Applying migration 20240320000001";
     EBegin; ERun "20240320000001"; EExecute (InsertMigration "20240320000001"); ECommit;
     ELog INFO "Successfully applied migration 20240320000001"].
Proof.
  assert (apply_migration m1 ready = (Ok tt, (apply_migration m1 ready).2)) as Happ
    by (vm_compute; reflexivity).
  split; [exact Happ|].
  exact (proj1 (proj2 (apply_migration_protocol m1 ready _ _ Happ))).
Defined.

(** ** [sorted] *)

Section Sorted.
Context {A : Type} (key : A → string).

Lemma insert_by_perm (x : A) (l : list A) : insert_by key x l ≡ₚ x :: l.
Proof.
  induction l as [|y l IH]; simpl; [done|].
  destruct (Str.leb (key x) (key y)); [done|].
  rewrite IH. apply Permutation_swap.
Qed.

Lemma sorted_perm (l : list A) : sorted key l ≡ₚ l.
Proof.
  induction l as [|x l IH]; simpl; [done|].
  unfold sorted in *. simpl. rewrite insert_by_perm. by rewrite IH.
Qed.

Lemma insert_by_ascending (x : A) (l : list A) :
  ascending key l → ascending key (insert_by key x l).
Proof.
  unfold ascending. induction l as [|y l IH]; simpl; intros Hl.
  - repeat constructor.
  - apply StronglySorted_inv in Hl as [Hl Hy].
    destruct (Str.leb (key x) (key y)) eqn:Hxy.
    + constructor; [by constructor|].
      constructor; [done|].
      eapply Forall_impl; [exact Hy|]. simpl. intros z Hz.
      by eapply StrFacts.le_trans.
    + constructor; [by apply IH|].
      rewrite insert_by_perm. constructor; [|done].
      destruct (StrFacts.le_total (key x) (key y)) as [H|H]; [|done].
      unfold Str.le in H. congruence.
Qed.

Lemma sorted_ascending (l : list A) : ascending key (sorted key l).
Proof.
  induction l as [|x l IH]; simpl; [constructor|].
  by apply insert_by_ascending.
Qed.

(** Stability: elements with the same key keep their order. *)
Lemma insert_by_filter_key (k : string) (x : A) (l : list A) :
  filter (λ y, key y = k) (insert_by key x l) =
  filter (λ y, key y = k) (x :: l).
Proof.
  induction l as [|y l IH]; simpl; [done|].
  destruct (Str.leb (key x) (key y)) eqn:Hxy; [done|].
  rewrite filter_cons, IH, !filter_cons.
  destruct (decide (key y = k)) as [Hy|Hy]; [|done].
  destruct (decide (key x = k)) as [Hx|Hx]; [|done].
  exfalso. rewrite Hy, <- Hx in Hxy.
  pose proof (StrFacts.le_refl (key x)) as Hr. unfold Str.le in Hr. congruence.
Qed.

Lemma sorted_stable (k : string) (l : list A) :
  filter (λ y, key y = k) (sorted key l) = filter (λ y, key y = k) l.
Proof.
  induction l as [|x l IH]; simpl; [done|].
  unfold sorted in *. simpl. rewrite insert_by_filter_key, !filter_cons.
  by rewrite IH.
Qed.

End Sorted.

Lemma ascending_filter {A : Type} (key : A → string) (P : A → Prop)
    `{!∀ x, Decision (P x)} (l : list A) :
  ascending key l → ascending key (filter P l).
Proof.
  unfold ascending. induction 1 as [|x l Hl IH Hx]; [constructor|].
  rewrite filter_cons. destruct (decide (P x)); [|done].
  constructor; [done|].
  apply Forall_forall. intros y [_ Hy]%list_elem_of_filter.
  rewrite Forall_forall in Hx. by apply Hx.
Qed.

Lemma ascending_fmap {A : Type} (key : A → string) (l : list A) :
  ascending key l → StronglySorted Str.le (key <$> l).
Proof.
  unfold ascending. induction 1 as [|x l Hl IH Hx]; simpl; [constructor|].
  constructor; [done|]. by apply Forall_fmap.
Qed.

(** Ascending without repetition is strictly ascending. *)
Lemma ascending_NoDup_strict (l : list string) :
  StronglySorted Str.le l → NoDup l → StronglySorted Str.lt l.
Proof.
  induction 1 as [|x l Hl IH Hx]; intros Hnd; [constructor|].
  apply NoDup_cons in Hnd as [Hx' Hnd].
  constructor; [by apply IH|].
  apply Forall_forall. intros y Hy.
  apply StrFacts.le_neq_lt.
  - rewrite Forall_forall in Hx. by apply Hx.
  - intros ->. done.
Qed.

Lemma StronglySorted_prefix {A : Type} (R : A → A → Prop) (l k : list A) :
  l `prefix_of` k → StronglySorted R k → StronglySorted R l.
Proof. intros [t ->]. apply StronglySorted_app_1_l. Qed.

(** ** The loop *)

Section ForEach.
Context {A : Type} (body : A → M unit).

Lemma for_each_app (l1 l2 : list A) (w : World) :
  for_each (l1 ++ l2) body w =
    match for_each l1 body w with
    | (Ok _, w2) => for_each l2 body w2
    | (Raise e, w2) => (Raise e, w2)
    end.
Proof.
  revert w. induction l1 as [|x l1 IH]; intros w; simpl; [done|].
  unfold mbind, M_bind. destruct (body x w) as [[[]|e] w1]; [apply IH|done].
Qed.

(** A loop that raises did so at its first failing element. *)
Lemma for_each_raise_inv (l : list A) (w w' : World) (e : exn) :
  for_each l body w = (Raise e, w') →
  ∃ pre x post w2,
    l = pre ++ x :: post ∧
    for_each pre body w = (Ok tt, w2) ∧
    body x w2 = (Raise e, w').
Proof.
  revert w. induction l as [|x l IH]; intros w; simpl; [done|].
  unfold mbind, M_bind. destruct (body x w) as [[[]|e1] w1] eqn:Hx.
  - intros (pre & y & post & w2 & -> & Hpre & Hy)%IH.
    exists (x :: pre), y, post, w2. split; [done|]. split; [|done].
    simpl. unfold mbind, M_bind. by rewrite Hx.
  - intros [= -> ->]. by exists [], x, l, w.
Qed.

Lemma for_each_filter (P : A → Prop) `{!∀ x, Decision (P x)} (l : list A) (w : World) :
  for_each l (λ x, if decide (P x) then body x else mret tt) w =
  for_each (filter P l) body w.
Proof.
  revert w. induction l as [|x l IH]; intros w; simpl; [done|].
  rewrite filter_cons. unfold mbind, M_bind.
  destruct (decide (P x)); simpl.
  - unfold mbind, M_bind. destruct (body x w) as [[[]|e] w1]; [apply IH|done].
  - apply IH.
Qed.

End ForEach.

(** ** The start of a run *)

Lemma visible_set_visible (c : Conn) (d : DB) : visible (set_visible c d) = d.
Proof. unfold visible, set_visible. by destruct (txn c). Qed.

Lemma applied_ids_ensure_store (d : DB) : applied_ids (ensure_store d) = applied_ids d.
Proof. by destruct d as [t [rows|]]. Qed.

Lemma ensure_store_exists (d : DB) :
  _migrations (ensure_store d) = Some (default [] (_migrations d)).
Proof. by destruct d as [t [rows|]]. Qed.

Lemma init_migrations_table_spec (w : World) :
  init_migrations_table w =
    (Ok tt, {| con := set_visible (con w) (ensure_store (visible (con w)));
               trace := trace w ++ [EExecute CreateMigrationsTable] |}).
Proof.
  destruct w as [[[t [rows|]] [[t' [rows'|]]|] ck] tr]; by step_service.
Qed.

Lemma get_applied_migrations_spec (w : World) :
  get_applied_migrations w =
    (match _migrations (visible (con w)) with
     | Some rows => Ok (sorted (λ i, i) (row_id <$> rows))
     | None => Raise (CatalogException "Table with name _migrations does not exist!")
     end,
     {| con := con w; trace := trace w ++ [EExecute SelectMigrationIds] |}).
Proof.
  destruct w as [[[t [rows|]] [[t' [rows'|]]|] ck] tr]; by step_service.
Qed.

Lemma prelude_idle (w : World) : idle w → idle (prelude w).
Proof. unfold idle, prelude, set_visible. simpl. by intros ->. Qed.

Lemma prelude_committed (w : World) :
  idle w → committed (con (prelude w)) = ensure_store (committed (con w)).
Proof. unfold idle, prelude, set_visible, visible. simpl. by intros ->. Qed.

Lemma prelude_clock (w : World) : clock (con (prelude w)) = clock (con w).
Proof. unfold prelude, set_visible. simpl. by destruct (txn (con w)). Qed.

Lemma applied_set_sorted (l : list string) :
  list_to_set (C := gset string) (sorted (λ i, i) l) = list_to_set l.
Proof. apply list_to_set_perm_L, sorted_perm. Qed.

(** [run_migrations], step by step: the store, the applied-set, the
    ordering check, then the pending migrations in their order. *)
Lemma run_migrations_unfold (ms : list Migration) (w : World) :
  run_migrations ms w =
    match validate_migration_order ms (applied_set w) with
    | Raise e =>
        (Raise (run_failure e),
         {| con := con (prelude w);
            trace := trace (prelude w) ++
              [ELog ERROR "Migration failed, application startup aborted"] |})
    | Ok _ =>
        match for_each (pending ms (applied_set w)) apply_migration (prelude w) with
        | (Ok _, w2) => (Ok tt, w2)
        | (Raise e, w2) =>
            (Raise (run_failure e),
             {| con := con w2;
                trace := trace w2 ++
                  [ELog ERROR "Migration failed, application startup aborted"] |})
        end
    end.
Proof.
  unfold run_migrations, try_except.
  unfold mbind at 1, M_bind at 1. rewrite init_migrations_table_spec.
  unfold mbind at 1, M_bind at 1. rewrite get_applied_migrations_spec. simpl.
  rewrite visible_set_visible, ensure_store_exists.
  rewrite <- app_assoc. simpl.
  assert (list_to_set (C := gset string)
            (sorted (λ i, i) (row_id <$> default [] (_migrations (visible (con w)))))
          = applied_set w) as ->.
  { rewrite applied_set_sorted. unfold applied_set, applied_ids.
    by destruct (_migrations (visible (con w))). }
  unfold mbind at 1, M_bind at 1, lift.
  destruct (validate_migration_order ms (applied_set w)) as [[]|e]; simpl.
  - rewrite for_each_filter. fold (pending ms (applied_set w)).
    unfold prelude.
    destruct (for_each _ _ _) as [[[]|e] w2]; [done|].
    by step_service.
  - by step_service.
Qed.

Lemma effect_cons (m : Migration) (l : list Migration) (t : list string) :
  effect (m :: l) t = effect l (in_transaction m t).1.
Proof. done. Qed.

(** A loop of [apply_migration] that completes has committed every
    migration of the list, in order; no identifier was in the store and none
    occurs twice. *)
Lemma for_each_apply_ok (l : list Migration) (w w' : World) (rows0 : list Row) :
  idle w →
  _migrations (committed (con w)) = Some rows0 →
  for_each l apply_migration w = (Ok tt, w') →
  con w' =
    {| committed :=
         {| tables := effect l (tables (committed (con w)));
            _migrations := Some (rows0 ++ (row_of (clock (con w)) <$> l)) |};
       txn := None;
       clock := clock (con w) |} ∧
  trace w' = trace w ++ (l ≫= commit_events) ∧
  NoDup (id <$> l) ∧
  (∀ m, m ∈ l → id m ∉ row_id <$> rows0).
Proof.
  revert w rows0. induction l as [|m l IH]; intros w rows0 Hidle Hrows.
  - simpl. intros [= <-]. rewrite !app_nil_r.
    destruct w as [[[t r] tx ck] tr]. unfold idle in Hidle. simpl in *. subst.
    repeat split; try done; [constructor|]. intros m Hm. inversion Hm.
  - rewrite effect_cons. cbn [for_each]. unfold mbind, M_bind.
    destruct (apply_migration m w) as [[[]|e] w1] eqn:Heq; [|done].
    destruct (apply_migration_ok m w w1 Hidle Heq)
      as (t & rows & Hrun & Hrows' & Hnew & ->).
    assert (rows = rows0) as -> by congruence.
    intros Hloop.
    apply (IH _ (rows0 ++ [row_of (clock (con w)) m])) in Hloop; [|done..].
    simpl in Hloop. destruct Hloop as (Hcon & Htr & Hnd & Hfresh).
    rewrite Hcon, Htr, Hrun. simpl.
    rewrite <- !app_assoc. simpl.
    repeat split; try done.
    + apply NoDup_cons. split; [|done].
      intros (m' & Hid & Hm')%list_elem_of_fmap.
      apply (Hfresh m' Hm'). rewrite fmap_app. apply elem_of_app. right.
      simpl. rewrite <- Hid. apply list_elem_of_singleton. done.
    + intros m' [->|Hm']%elem_of_cons; [done|].
      intros Hin. apply (Hfresh m' Hm'). rewrite fmap_app. apply elem_of_app. by left.
Qed.

(** ** The store and the applied identifiers *)

Lemma set_visible_visible (c : Conn) : set_visible c (visible c) = c.
Proof. by destruct c as [cm [d|] ck]. Qed.

Lemma ensure_store_id (d : DB) (rows : list Row) :
  _migrations d = Some rows → ensure_store d = d.
Proof. unfold ensure_store. by intros ->. Qed.

Lemma ensure_store_idemp (d : DB) : ensure_store (ensure_store d) = ensure_store d.
Proof. by destruct d as [t [rows|]]. Qed.

Lemma set_visible_twice (c : Conn) (d d' : DB) :
  set_visible (set_visible c d) d' = set_visible c d'.
Proof. by destruct c as [cm [d0|] ck]. Qed.

Lemma init_step_con (w : World) :
  con (init_migrations_table w).2 = set_visible (con w) (ensure_store (visible (con w))).
Proof. by rewrite init_migrations_table_spec. Qed.

Lemma init_iter_con (n : nat) (w : World) :
  con (Nat.iter (S n) (λ w, (init_migrations_table w).2) w) =
  set_visible (con w) (ensure_store (visible (con w))).
Proof.
  induction n as [|n IH]; [apply init_step_con|].
  rewrite Nat.iter_succ, init_step_con, IH.
  by rewrite visible_set_visible, ensure_store_idemp, set_visible_twice.
Qed.

(** C8. [init_migrations_table] can be called any number of times: no call
    raises; after the first the store exists, with the rows it had if it was
    there already and empty otherwise, next to the same tables; a store that
    exists is left as it is, and every further call leaves the connection as
    the first call left it. *)
Theorem init_migrations_table_idempotent (n : nat) (w : World) :
  let call := λ w, (init_migrations_table w).2 in
  (init_migrations_table (Nat.iter n call w)).1 = Ok tt ∧
  con (Nat.iter (S n) call w) = con (call w) ∧
  visible (con (call w)) =
    {| tables := tables (visible (con w));
       _migrations := Some (default [] (_migrations (visible (con w)))) |} ∧
  (∀ rows, _migrations (visible (con w)) = Some rows → con (call w) = con w) ∧
  con (call (call w)) = con (call w).
Proof.
  cbv zeta. split; [by rewrite init_migrations_table_spec|].
  split; [by rewrite init_iter_con, init_step_con|].
  split.
  { rewrite init_step_con, visible_set_visible.
    by destruct (visible (con w)) as [t [rows|]]. }
  split.
  { intros rows Hrows. rewrite init_step_con, (ensure_store_id _ rows Hrows).
    apply set_visible_visible. }
  rewrite !init_step_con.
  by rewrite visible_set_visible, ensure_store_idemp, set_visible_twice.
Qed.

(** C10. [get_applied_migrations] leaves the connection as it is, and when
    the store exists it returns the recorded identifiers as a list in
    ascending order. *)
Theorem get_applied_migrations_sorted (w : World) :
  con (get_applied_migrations w).2 = con w ∧
  ∀ rows, _migrations (visible (con w)) = Some rows →
    ∃ ids, (get_applied_migrations w).1 = Ok ids ∧
      ids ≡ₚ row_id <$> rows ∧
      StronglySorted Str.le ids.
Proof.
  rewrite get_applied_migrations_spec. simpl. split; [done|].
  intros rows ->. eexists. split; [done|]. split; [apply sorted_perm|].
  pose proof (sorted_ascending (λ i : string, i) (row_id <$> rows)) as Hs.
  exact Hs.
Qed.

(** ** A run that fails the ordering check *)

Lemma applied_set_store (w : World) (i : string) :
  i ∈ applied_set w → ∃ rows, _migrations (visible (con w)) = Some rows.
Proof.
  unfold applied_set, applied_ids. destruct (_migrations (visible (con w))) as [rows|].
  - by exists rows.
  - intros H. apply elem_of_list_to_set in H. inversion H.
Qed.

Lemma prelude_store (w : World) (rows : list Row) :
  _migrations (visible (con w)) = Some rows → con (prelude w) = con w.
Proof.
  intros Hrows. unfold prelude. simpl.
  rewrite (ensure_store_id _ rows Hrows). apply set_visible_visible.
Qed.

(** C7. When some candidate that is not applied has an identifier below the
    greatest applied one, [run_migrations] raises, with the ordering
    violation as cause, before any procedure is invoked: its calls are the
    two statements on the store, and the connection is as before. *)
Theorem run_migrations_ordering_violation
    (ms : list Migration) (w : World) (m : Migration) (mx : string) :
  greatest mx (applied_set w) →
  m ∈ ms →
  id m ∉ applied_set w →
  Str.lt (id m) mx →
  ∃ w',
    run_migrations ms w =
      (Raise (MigrationError "Failed to run migrations"
                (Some (MigrationError
                         ("Found new migration(s) with ID lower than latest applied migration "
                          +:+ mx) None))), w') ∧
    con w' = con w ∧
    trace w' = trace w ++
      [EExecute CreateMigrationsTable; EExecute SelectMigrationIds;
       ELog ERROR "Migration failed, application startup aborted"].
Proof.
  intros Hmx Hm Hnew Hlt.
  rewrite run_migrations_unfold, (validate_nonempty ms _ mx Hmx).
  assert (any (λ m, Str.ltb (id m) mx) (filter (λ m, id m ∉ applied_set w) ms) = true)
    as ->.
  { apply any_true. exists m. split; [|done]. by apply list_elem_of_filter. }
  eexists. split; [done|]. simpl.
  destruct Hmx as [Hin _]. apply applied_set_store in Hin as [rows Hrows].
  split.
  - rewrite (ensure_store_id _ rows Hrows). apply set_visible_visible.
  - by rewrite <- app_assoc.
Qed.

Lemma run_migrations_ordering_violation_witness :
  greatest "20240320000002" (applied_set applied2) ∧
  m1 ∈ [m1; m2] ∧
  (id m1 ∉ applied_set applied2) ∧
  Str.lt (id m1) "20240320000002" ∧
  ∃ w', (run_migrations [m1; m2] applied2).1 =
          Raise (MigrationError "Failed to run migrations"
                   (Some (MigrationError
                            ("Found new migration(s) with ID lower than latest applied migration "
                             +:+ "20240320000002") None))) ∧
        con w' = con applied2.
Proof.
  assert (applied_set applied2 = {["20240320000002"]}) as Hset.
  { unfold applied_set, applied_ids. simpl. apply leibniz_equiv. set_solver. }
  assert (greatest "20240320000002" (applied_set applied2)) as Hmx.
  { rewrite Hset. split; [by apply elem_of_singleton|].
    intros x ->%elem_of_singleton. apply StrFacts.le_refl. }
  assert (m1 ∈ [m1; m2]) as Hm by (apply elem_of_cons; by left).
  assert (id m1 ∉ applied_set applied2) as Hnew.
  { rewrite Hset. intros H%elem_of_singleton. discriminate. }
  assert (Str.lt (id m1) "20240320000002") as Hlt by reflexivity.
  split; [exact Hmx|]. split; [exact Hm|]. split; [exact Hnew|]. split; [exact Hlt|].
  destruct (run_migrations_ordering_violation [m1; m2] applied2 m1 _ Hmx Hm Hnew Hlt)
    as (w' & Hrun & Hcon & _).
  exists w'. rewrite Hrun. split; [reflexivity|exact Hcon].
Defined.

(** ** A whole run *)

Lemma runs_of_app (t1 t2 : list Event) : runs_of (t1 ++ t2) = runs_of t1 ++ runs_of t2.
Proof. apply omap_app. Qed.

Lemma runs_of_commit_events (l : list Migration) :
  runs_of (l ≫= commit_events) = id <$> l.
Proof.
  induction l as [|m l IH]; [done|].
  change ((m :: l) ≫= commit_events) with (commit_events m ++ (l ≫= commit_events)).
  rewrite runs_of_app, IH. done.
Qed.

Lemma runs_of_rollback_events (m : Migration) (calls : list Event) (cause : exn) :
  calls = [] ∨ calls = [EExecute (InsertMigration (id m))] →
  runs_of (rollback_events m calls cause) = [id m].
Proof. by intros [-> | ->]. Qed.

Lemma runs_of_escape_events (m : Migration) (calls : list Event) :
  calls = [] ∨ calls = [EExecute (InsertMigration (id m))] →
  runs_of (escape_events m calls) = [id m].
Proof. by intros [-> | ->]. Qed.

Lemma rollback_events_no_commit (m : Migration) (calls : list Event) (cause : exn) :
  calls = [] ∨ calls = [EExecute (InsertMigration (id m))] →
  ECommit ∉ rollback_events m calls cause.
Proof.
  intros [-> | ->] Hin; unfold rollback_events in Hin; simpl in Hin;
    repeat (apply elem_of_cons in Hin as [Hin|Hin]; [discriminate|]);
    by apply elem_of_nil in Hin.
Qed.

Lemma escape_events_no_commit (m : Migration) (calls : list Event) :
  calls = [] ∨ calls = [EExecute (InsertMigration (id m))] →
  ECommit ∉ escape_events m calls.
Proof.
  intros [-> | ->] Hin; unfold escape_events in Hin; simpl in Hin;
    repeat (apply elem_of_cons in Hin as [Hin|Hin]; [discriminate|]);
    by apply elem_of_nil in Hin.
Qed.

(** A failing [apply_migration] on an idle connection has invoked the
    procedure, once, and recorded nothing. *)
Lemma apply_migration_raises_runs (m : Migration) (w w' : World) (e : exn) :
  idle w →
  apply_migration m w = (Raise e, w') →
  idle w' ∧
  clock (con w') = clock (con w) ∧
  applied_ids (committed (con w')) = applied_ids (committed (con w)) ∧
  ∃ evs, trace w' = trace w ++ evs ∧ runs_of evs = [id m].
Proof.
  intros Hidle Happ.
  destruct (apply_migration_raises m w w' e Hidle Happ)
    as (Hidle' & Hck & Hrec & cause & calls & _ & Hcalls & Hhow & _).
  split; [done|]. split; [done|]. split; [unfold applied_ids; by rewrite Hrec|].
  destruct Hhow as [[_ ->]|[_ ->]]; eexists; (split; [done|]).
  - by apply runs_of_rollback_events.
  - by apply runs_of_escape_events.
Qed.

(** A loop of [apply_migration] that raises: the migrations before the
    failing one are committed, the failing one raises from the world [w2]
    they left, and none after it is touched. *)
Lemma for_each_apply_raise (l : list Migration) (w w' : World) (e : exn) :
  idle w →
  is_Some (_migrations (committed (con w))) →
  for_each l apply_migration w = (Raise e, w') →
  ∃ pre m post w2,
    l = pre ++ m :: post ∧
    w2 = {| con := {| committed := applied_db (clock (con w)) pre (committed (con w));
                      txn := None; clock := clock (con w) |};
            trace := trace w ++ (pre ≫= commit_events) |} ∧
    apply_migration m w2 = (Raise e, w') ∧
    NoDup (id <$> pre) ∧
    (∀ p, p ∈ pre → id p ∉ applied_ids (committed (con w))).
Proof.
  intros Hidle [rows0 Hrows] Hloop.
  apply for_each_raise_inv in Hloop as (pre & m & post & w2 & -> & Hpre & Hm).
  destruct (for_each_apply_ok pre w w2 rows0 Hidle Hrows Hpre)
    as (Hcon & Htr & Hnd & Hfresh).
  exists pre, m, post, w2.
  unfold applied_db, applied_ids. rewrite Hrows. cbn [default].
  split; [done|]. split; [|done].
  destruct w2 as [c2 t2]. cbn [con trace] in Hcon, Htr. by rewrite Hcon, Htr.
Qed.

Lemma for_each_apply_ok' (l : list Migration) (w w' : World) :
  idle w →
  is_Some (_migrations (committed (con w))) →
  for_each l apply_migration w = (Ok tt, w') →
  con w' = {| committed := applied_db (clock (con w)) l (committed (con w));
              txn := None; clock := clock (con w) |} ∧
  trace w' = trace w ++ (l ≫= commit_events) ∧
  NoDup (id <$> l) ∧
  (∀ p, p ∈ l → id p ∉ applied_ids (committed (con w))).
Proof.
  intros Hidle [rows0 Hrows] Hloop.
  destruct (for_each_apply_ok l w w' rows0 Hidle Hrows Hloop)
    as (Hcon & Htr & Hnd & Hfresh).
  unfold applied_db, applied_ids. by rewrite Hrows.
Qed.

Lemma prelude_con (w : World) :
  idle w →
  con (prelude w) =
    {| committed := ensure_store (committed (con w)); txn := None; clock := clock (con w) |}.
Proof.
  destruct w as [[cm tx ck] tr]. unfold idle, prelude. simpl. by intros ->.
Qed.

Lemma applied_db_ensure_store (now : Z) (l : list Migration) (d : DB) :
  applied_db now l (ensure_store d) = applied_db now l d.
Proof. by destruct d as [t [rows|]]. Qed.

Lemma applied_set_idle (w : World) :
  idle w → applied_set w = list_to_set (applied_ids (committed (con w))).
Proof. unfold idle, applied_set, visible. by intros ->. Qed.

(** The three ways a run on an idle connection goes: the ordering check
    raises; every pending migration is applied; or the pending migrations
    are applied up to one that fails. *)
Lemma run_migrations_idle (ms : list Migration) (w : World) :
  idle w →
  let now := clock (con w) in
  let d := committed (con w) in
  (∃ e,
     validate_migration_order ms (applied_set w) = Raise e ∧
     run_migrations ms w =
       (Raise (run_failure e),
        {| con := {| committed := ensure_store d; txn := None; clock := now |};
           trace := trace w ++
             [EExecute CreateMigrationsTable; EExecute SelectMigrationIds;
              ELog ERROR "Migration failed, application startup aborted"] |})) ∨
  (validate_migration_order ms (applied_set w) = Ok tt ∧
   NoDup (id <$> pending ms (applied_set w)) ∧
   run_migrations ms w =
     (Ok tt,
      {| con := {| committed := applied_db now (pending ms (applied_set w)) d;
                   txn := None; clock := now |};
         trace := trace w ++
           [EExecute CreateMigrationsTable; EExecute SelectMigrationIds] ++
           (pending ms (applied_set w) ≫= commit_events) |})) ∨
  (validate_migration_order ms (applied_set w) = Ok tt ∧
   ∃ pre m post e w3,
     pending ms (applied_set w) = pre ++ m :: post ∧
     NoDup (id <$> pre) ∧
     apply_migration m
       {| con := {| committed := applied_db now pre d; txn := None; clock := now |};
          trace := trace w ++
            [EExecute CreateMigrationsTable; EExecute SelectMigrationIds] ++
            (pre ≫= commit_events) |} = (Raise e, w3) ∧
     run_migrations ms w =
       (Raise (run_failure e),
        {| con := con w3;
           trace := trace w3 ++
             [ELog ERROR "Migration failed, application startup aborted"] |})).
Proof.
  intros Hidle. cbv zeta. rewrite run_migrations_unfold.
  destruct (validate_migration_order ms (applied_set w)) as [[]|e] eqn:Hval.
  - assert (idle (prelude w)) as Hidle1 by by apply prelude_idle.
    assert (is_Some (_migrations (committed (con (prelude w))))) as Hsome.
    { rewrite (prelude_committed w Hidle), ensure_store_exists. by eexists. }
    destruct (for_each _ _ _) as [[[]|e] w2] eqn:Hloop.
    + right. left. split; [done|].
      destruct (for_each_apply_ok' _ _ _ Hidle1 Hsome Hloop) as (Hcon & Htr & Hnd & _).
      split; [done|]. f_equal.
      rewrite prelude_clock, (prelude_committed w Hidle), applied_db_ensure_store in Hcon.
      destruct w2 as [c2 t2]. simpl in Hcon, Htr. subst c2 t2.
      by rewrite <- app_assoc.
    + right. right. split; [done|].
      destruct (for_each_apply_raise _ _ _ _ Hidle1 Hsome Hloop)
        as (pre & m & post & w1 & Hsplit & Hw1 & Happ & Hnd & _).
      rewrite prelude_clock, (prelude_committed w Hidle), applied_db_ensure_store in Hw1.
      exists pre, m, post, e, w2. split; [done|]. split; [done|].
      split; [|done]. rewrite <- Happ, Hw1. unfold prelude. cbn [trace].
      by rewrite <- !app_assoc.
  - left. exists e. split; [done|].
    rewrite (prelude_con w Hidle). simpl. by rewrite <- app_assoc.
Qed.

Lemma applied_ids_applied_db (now : Z) (l : list Migration) (d : DB) :
  applied_ids (applied_db now l d) = applied_ids d ++ (id <$> l).
Proof.
  unfold applied_db, applied_ids. simpl. rewrite fmap_app.
  f_equal; [by destruct (_migrations d)|].
  rewrite <- list_fmap_compose. done.
Qed.

Lemma pending_not_applied (ms : list Migration) (applied : gset string) (i : string) :
  i ∈ id <$> pending ms applied → i ∉ applied.
Proof.
  intros (m & -> & Hm)%list_elem_of_fmap.
  by apply list_elem_of_filter in Hm as [Hnew _].
Qed.

Lemma pending_ascending (ms : list Migration) (applied : gset string) :
  StronglySorted Str.le (id <$> pending ms applied).
Proof. apply ascending_fmap, ascending_filter, sorted_ascending. Qed.

Lemma prefix_strict (done all : list string) :
  done `prefix_of` all → StronglySorted Str.le all → NoDup done →
  StronglySorted Str.lt done.
Proof.
  intros Hpre Hall Hnd. apply ascending_NoDup_strict; [|done].
  by eapply StronglySorted_prefix.
Qed.

Lemma prelude_busy (w : World) (d : DB) :
  txn (con w) = Some d →
  txn (con (prelude w)) = Some (ensure_store d) ∧
  committed (con (prelude w)) = committed (con w).
Proof.
  destruct w as [[cm tx ck] tr]. unfold prelude, set_visible, visible. simpl.
  by intros ->.
Qed.

(** A run on a connection that has a transaction open invokes no
    procedure and commits nothing. *)
Lemma run_migrations_busy (ms : list Migration) (w : World) (d : DB) :
  txn (con w) = Some d →
  ∃ r w' delta,
    run_migrations ms w = (r, w') ∧
    trace w' = trace w ++ delta ∧
    runs_of delta = [] ∧
    committed (con w') = committed (con w) ∧
    (r = Ok tt → pending ms (applied_set w) = []).
Proof.
  intros Hbusy. destruct (prelude_busy w d Hbusy) as [Htxn Hcm].
  rewrite run_migrations_unfold.
  destruct (validate_migration_order ms (applied_set w)) as [[]|e].
  - destruct (pending ms (applied_set w)) as [|m l].
    + cbn [for_each]. unfold mret, M_ret.
      eexists _, _, [EExecute CreateMigrationsTable; EExecute SelectMigrationIds].
      split; [done|]. by repeat split.
    + cbn [for_each]. unfold mbind, M_bind.
      rewrite (apply_migration_busy m (prelude w) _ Htxn). cbv zeta.
      eexists _, _, ([EExecute CreateMigrationsTable; EExecute SelectMigrationIds] ++
                     [ELog INFO ("Applying migration " +:+ id m); EBegin; ERollback;
                      ELog ERROR _] ++
                     [ELog ERROR "Migration failed, application startup aborted"]).
      split; [done|]. cbn [con trace committed]. split.
      { unfold prelude. cbn [trace]. rewrite <- !app_assoc. reflexivity. }
      by repeat split.
  - eexists _, _, ([EExecute CreateMigrationsTable; EExecute SelectMigrationIds] ++
                   [ELog ERROR "Migration failed, application startup aborted"]).
    split; [done|]. cbn [con trace committed]. split.
    { unfold prelude. cbn [trace]. rewrite <- !app_assoc. reflexivity. }
    by repeat split.
Qed.

(** C2. [run_migrations] takes the whole collection sorted ascending by
    identifier and invokes, in that order, the
    procedures of the migrations whose identifier is not in the applied-set
    it read, all of them when it completes and a prefix of them when it
    raises. The identifiers it has recorded are those of the invoked
    procedures, the last one excepted when that one failed, and they are
    strictly ascending; no procedure whose identifier is in the applied-set
    is invoked. *)
Theorem run_migrations_order (ms : list Migration) (w w' : World) (r : result unit) :
  run_migrations ms w = (r, w') →
  let todo := filter (λ m, id m ∉ applied_set w) (sorted id ms) in
  sorted id ms ≡ₚ ms ∧
  ascending id (sorted id ms) ∧
  ∃ delta done,
    trace w' = trace w ++ delta ∧
    runs_of delta `prefix_of` (id <$> todo) ∧
    (r = Ok tt → runs_of delta = id <$> todo) ∧
    (∀ i, i ∈ runs_of delta → i ∉ applied_set w) ∧
    applied_ids (committed (con w')) = applied_ids (committed (con w)) ++ done ∧
    (runs_of delta = done ∨ ∃ i, runs_of delta = done ++ [i]) ∧
    (r = Ok tt → runs_of delta = done) ∧
    StronglySorted Str.lt done.
Proof.
  intros Hrun todo.
  split; [apply sorted_perm|]. split; [apply sorted_ascending|].
  fold (pending ms (applied_set w)) in todo. subst todo.
  set (todo := pending ms (applied_set w)) in *.
  destruct (txn (con w)) as [d|] eqn:Hidle.
  { destruct (run_migrations_busy ms w d Hidle)
      as (r0 & w0 & delta & Heq & Htr & Hruns & Hcm & Hok).
    rewrite Heq in Hrun. injection Hrun as -> ->.
    exists delta, []. rewrite Hruns, Hcm, app_nil_r.
    split; [done|]. split; [apply prefix_nil|].
    split; [intros Hr; unfold todo; by rewrite (Hok Hr)|].
    split; [intros i Hi; inversion Hi|].
    split; [done|]. split; [by left|]. split; [done|constructor]. }
  set (store := [EExecute CreateMigrationsTable; EExecute SelectMigrationIds]).
  assert (∀ ids, ids `prefix_of` (id <$> todo) →
                 ∀ i, i ∈ ids → i ∉ applied_set w) as Hskip.
  { intros ids [k Hk] i Hi. apply (pending_not_applied ms).
    fold todo. rewrite Hk. apply elem_of_app. by left. }
  destruct (run_migrations_idle ms w Hidle)
    as [(e & _ & Heq)|[(_ & Hnd & Heq)|(_ & pre & m & post & e & w3 & Hsplit & Hnd
                                         & Happ & Heq)]];
    rewrite Heq in Hrun; injection Hrun as <- <-; cbn [con trace committed].
  - exists (store ++ [ELog ERROR "Migration failed, application startup aborted"]), [].
    split; [done|].
    split; [apply prefix_nil|]. split; [done|].
    split; [intros i Hi; inversion Hi|].
    rewrite applied_ids_ensure_store, app_nil_r.
    repeat split; try done; [by left|constructor].
  - exists (store ++ todo ≫= commit_events), (id <$> todo).
    split; [done|].
    assert (runs_of (store ++ todo ≫= commit_events) = id <$> todo) as Hruns.
    { rewrite runs_of_app, runs_of_commit_events. done. }
    rewrite Hruns. split; [done|]. split; [done|].
    split; [by apply Hskip|].
    split; [apply applied_ids_applied_db|].
    split; [by left|]. split; [done|].
    apply ascending_NoDup_strict; [apply pending_ascending|done].
  - apply apply_migration_raises_runs in Happ as (_ & _ & Hids & evs & Htr & Hevs);
      [|done].
    cbn [con trace committed] in Hids, Htr.
    exists (store ++ (pre ≫= commit_events) ++ evs ++
            [ELog ERROR "Migration failed, application startup aborted"]), (id <$> pre).
    split; [rewrite Htr; by rewrite <- !app_assoc|].
    assert (runs_of (store ++ (pre ≫= commit_events) ++ evs ++
                     [ELog ERROR "Migration failed, application startup aborted"])
            = (id <$> pre) ++ [id m]) as Hruns.
    { rewrite !runs_of_app, runs_of_commit_events, Hevs. done. }
    rewrite Hruns.
    assert (((id <$> pre) ++ [id m]) `prefix_of` (id <$> todo)) as Hpre.
    { exists (id <$> post). unfold todo. rewrite Hsplit, !fmap_app, <- app_assoc. done. }
    split; [done|]. split; [done|].
    split; [by apply Hskip|].
    split; [rewrite Hids; apply applied_ids_applied_db|].
    split; [right; by exists (id m)|]. split; [done|].
    apply (prefix_strict _ (id <$> todo)); [|apply pending_ascending|done].
    by eapply prefix_app_l.
Qed.

Lemma run_migrations_order_witness :
  run_migrations [m2; m1] fresh = (Ok tt, (run_migrations [m2; m1] fresh).2) ∧
  ∃ delta,
    trace (run_migrations [m2; m1] fresh).2 = trace fresh ++ delta ∧
    runs_of delta = ["20240320000001"; "20240320000002"].
Proof.
  assert (run_migrations [m2; m1] fresh = (Ok tt, (run_migrations [m2; m1] fresh).2))
    as Hrun by (vm_compute; reflexivity).
  split; [exact Hrun|].
  destruct (run_migrations_order [m2; m1] fresh _ _ Hrun)
    as (_ & _ & delta & done & Htr & _ & Hall & _).
  exists delta. split; [exact Htr|]. rewrite (Hall eq_refl).
  vm_compute. reflexivity.
Defined.

(** C4. When the pending migrations before [m] are applied and
    [apply_migration m] raises [e], the run halts there: it raises
    [MigrationError] with cause [e], the procedures invoked are those of the
    migrations before [m] and of [m], none after it, and the rows of the
    migrations before [m], each committed with the effect of its procedure,
    are in the store, with none for [m]. When the procedure of [m] leaves
    the transaction alone, the connection is as the migrations before [m]
    left it and [e] is the apply failure of [m]. *)
Theorem run_migrations_halts_on_failure
    (ms pre post : list Migration) (m : Migration) (w w2 w3 : World) (e : exn) :
  idle w →
  validate_migration_order ms (applied_set w) = Ok tt →
  pending ms (applied_set w) = pre ++ m :: post →
  for_each pre apply_migration (prelude w) = (Ok tt, w2) →
  apply_migration m w2 = (Raise e, w3) →
  ∃ w' delta,
    run_migrations ms w =
      (Raise (MigrationError "Failed to run migrations" (Some e)), w') ∧
    trace w' = trace w ++ delta ∧
    runs_of delta = (id <$> pre) ++ [id m] ∧
    txn (con w') = None ∧
    con w2 = {| committed := applied_db (clock (con w)) pre (committed (con w));
                txn := None; clock := clock (con w) |} ∧
    _migrations (committed (con w')) = _migrations (committed (con w2)) ∧
    applied_ids (committed (con w')) = applied_ids (committed (con w)) ++ (id <$> pre) ∧
    (∀ p, p ∈ pre → id p ∈ applied_ids (committed (con w'))) ∧
    (only_statements m →
     con w' = con w2 ∧
     ∃ cause, e = MigrationError ("Migration " +:+ id m +:+ " failed: " +:+ str cause)
                    (Some cause)).
Proof.
  intros Hidle Hval Hsplit Hpre Hm.
  assert (idle (prelude w)) as Hidle1 by by apply prelude_idle.
  assert (is_Some (_migrations (committed (con (prelude w))))) as Hsome.
  { rewrite (prelude_committed w Hidle), ensure_store_exists. by eexists. }
  destruct (for_each_apply_ok' pre _ _ Hidle1 Hsome Hpre) as (Hcon & Htr & _ & _).
  rewrite prelude_clock, (prelude_committed w Hidle), applied_db_ensure_store in Hcon.
  assert (idle w2) as Hidle2 by (unfold idle; by rewrite Hcon).
  destruct (apply_migration_raises m w2 w3 e Hidle2 Hm)
    as (Hidle3 & _ & Hrec & cause & calls & _ & Hcalls & _ & Honly).
  destruct (apply_migration_raises_runs m w2 w3 e Hidle2 Hm)
    as (_ & _ & Hids & evs & Htr3 & Hevs).
  exists {| con := con w3;
            trace := trace w3 ++
              [ELog ERROR "Migration failed, application startup aborted"] |},
    ([EExecute CreateMigrationsTable; EExecute SelectMigrationIds] ++
     (pre ≫= commit_events) ++ evs ++
     [ELog ERROR "Migration failed, application startup aborted"]).
  split.
  { rewrite run_migrations_unfold, Hval, Hsplit, for_each_app, Hpre.
    cbn [for_each]. unfold mbind at 1, M_bind at 1. rewrite Hm. reflexivity. }
  cbn [con trace]. split.
  { rewrite Htr3, Htr. unfold prelude. cbn [trace].
    rewrite <- !app_assoc. reflexivity. }
  split.
  { rewrite !runs_of_app, runs_of_commit_events, Hevs. done. }
  split; [done|]. split; [done|]. split; [done|].
  rewrite Hids, Hcon. cbn [committed]. rewrite applied_ids_applied_db.
  split; [done|]. split.
  - intros p Hp. apply elem_of_app. right. by apply list_elem_of_fmap_2.
  - intros Hm'. destruct (Honly Hm') as (Hc & -> & _). split; [by rewrite Hc, Hcon|].
    by exists cause.
Qed.

Lemma run_migrations_halts_on_failure_witness :
  idle fresh ∧
  validate_migration_order [m3; m2_bad; m1] (applied_set fresh) = Ok tt ∧
  pending [m3; m2_bad; m1] (applied_set fresh) = [m1] ++ m2_bad :: [m3] ∧
  (for_each [m1] apply_migration (prelude fresh)).1 = Ok tt ∧
  (apply_migration m2_bad (for_each [m1] apply_migration (prelude fresh)).2).1 =
    Raise (apply_failure m2_bad (Exception "Migration failed")) ∧
  ∃ w', run_migrations [m3; m2_bad; m1] fresh =
          (Raise (MigrationError "Failed to run migrations"
                    (Some (apply_failure m2_bad (Exception "Migration failed")))), w') ∧
        runs_of (trace w') = ["20240320000001"; "20240320000002"] ∧
        applied_ids (committed (con w')) = ["20240320000001"] ∧
        tables (committed (con w')) = ["test1"].
Proof.
  assert (idle fresh) as Hidle by reflexivity.
  assert (validate_migration_order [m3; m2_bad; m1] (applied_set fresh) = Ok tt)
    as Hval by (vm_compute; reflexivity).
  assert (pending [m3; m2_bad; m1] (applied_set fresh) = [m1] ++ m2_bad :: [m3])
    as Hsplit by (vm_compute; reflexivity).
  assert (for_each [m1] apply_migration (prelude fresh) =
            (Ok tt, (for_each [m1] apply_migration (prelude fresh)).2))
    as Hpre by (vm_compute; reflexivity).
  assert (apply_migration m2_bad (for_each [m1] apply_migration (prelude fresh)).2 =
            (Raise (apply_failure m2_bad (Exception "Migration failed")),
             (apply_migration m2_bad (for_each [m1] apply_migration (prelude fresh)).2).2))
    as Hm by (vm_compute; reflexivity).
  assert (only_statements m2_bad) as Hst by (repeat constructor).
  split; [exact Hidle|]. split; [exact Hval|]. split; [exact Hsplit|].
  split; [rewrite Hpre; reflexivity|]. split; [rewrite Hm; reflexivity|].
  destruct (run_migrations_halts_on_failure _ _ _ _ _ _ _ _ Hidle Hval Hsplit Hpre Hm)
    as (w' & delta & Hrun & Htr & Hruns & _ & Hcon2 & _ & Hids & _ & Honly).
  exists w'. split; [exact Hrun|]. split.
  { rewrite Htr. exact Hruns. }
  split; [exact Hids|].
  destruct (Honly Hst) as [Hcon _]. rewrite Hcon, Hcon2. reflexivity.
Defined.

(** ** Two migrations with one identifier *)

Section SplitByKey.
Context {A : Type} (key : A → string).

Lemma filter_all (P : A → Prop) `{!∀ x, Decision (P x)} (l : list A) :
  Forall P l → filter P l = l.
Proof.
  induction 1 as [|x l Hx Hl IH]; [done|].
  rewrite filter_cons. destruct (decide (P x)); [by rewrite IH|done].
Qed.

Lemma filter_none (P : A → Prop) `{!∀ x, Decision (P x)} (l : list A) :
  Forall (λ x, ¬ P x) l → filter P l = [].
Proof.
  induction 1 as [|x l Hx Hl IH]; [done|].
  rewrite filter_cons. destruct (decide (P x)); [done|exact IH].
Qed.

Lemma filter_comm (P Q : A → Prop) `{!∀ x, Decision (P x)} `{!∀ x, Decision (Q x)}
    (l : list A) :
  filter P (filter Q l) = filter Q (filter P l).
Proof.
  induction l as [|x l IH]; [done|].
  rewrite !(filter_cons _ x l).
  destruct (decide (Q x)), (decide (P x)); rewrite ?filter_cons;
    repeat (destruct (decide _); try done); by rewrite IH.
Qed.

(** An ascending list, cut at the key [i]: the elements below [i], those
    at [i], those above. *)
Lemma ascending_split_key (i : string) (l : list A) :
  ascending key l →
  l = filter (λ x, Str.lt (key x) i) l ++
      filter (λ x, key x = i) l ++
      filter (λ x, Str.lt i (key x)) l.
Proof.
  unfold ascending. induction 1 as [|x l Hl IH Hx]; [done|].
  rewrite !(filter_cons _ x l).
  destruct (decide (Str.lt (key x) i)) as [Hlt|Hnlt].
  - destruct (decide (key x = i)) as [Heq|_].
    { exfalso. rewrite Heq in Hlt. by apply StrFacts.lt_irrefl in Hlt. }
    destruct (decide (Str.lt i (key x))) as [Hgt|_].
    { exfalso. apply StrFacts.lt_not_le in Hgt. by apply Hgt, StrFacts.lt_le. }
    simpl. by rewrite <- IH.
  - assert (Str.le i (key x)) as Hle.
    { destruct (StrFacts.le_total i (key x)) as [H|H]; [done|].
      destruct (decide (key x = i)) as [->|Hne]; [apply StrFacts.le_refl|].
      exfalso. by apply Hnlt, StrFacts.le_neq_lt. }
    assert (filter (λ x, Str.lt (key x) i) l = []) as Hlow.
    { apply filter_none. eapply Forall_impl; [exact Hx|]. simpl.
      intros y Hy Hyi. apply StrFacts.lt_not_le in Hyi. apply Hyi.
      by eapply StrFacts.le_trans. }
    rewrite Hlow in IH |- *. simpl in IH |- *.
    destruct (decide (key x = i)) as [Heq|Hne].
    + destruct (decide (Str.lt i (key x))) as [Hgt|_].
      { exfalso. rewrite Heq in Hgt. by apply StrFacts.lt_irrefl in Hgt. }
      simpl. by rewrite <- IH.
    + assert (Str.lt i (key x)) as Hgt by by apply StrFacts.le_neq_lt.
      destruct (decide (Str.lt i (key x))); [|done].
      assert (filter (λ x, key x = i) l = []) as Hmid.
      { apply filter_none. eapply Forall_impl; [exact Hx|]. simpl.
        intros y Hy Hyi. rewrite Hyi in Hy.
        apply StrFacts.lt_not_le in Hgt. by apply Hgt. }
      rewrite Hmid in IH |- *. simpl in IH |- *. by rewrite <- IH.
Qed.

End SplitByKey.

Lemma insert_fresh (i : string) (now : Z) (d : DB) (rows : list Row) :
  _migrations d = Some rows →
  i ∉ row_id <$> rows →
  exec_stmt (InsertMigration i) now d =
    (Ok [], {| tables := tables d;
               _migrations := Some (rows ++ [{| row_id := i; applied_at := now |}]) |}).
Proof. simpl. intros -> Hnew. by destruct (decide _). Qed.

Lemma insert_duplicate (i : string) (now : Z) (d : DB) (rows : list Row) :
  _migrations d = Some rows →
  i ∈ row_id <$> rows →
  exec_stmt (InsertMigration i) now d =
    (Raise (ConstraintException
              ("Duplicate key " +:+ i +:+ " violates primary key constraint")), d).
Proof. simpl. intros -> Hdup. by destruct (decide _). Qed.

(** The pending migrations, cut at an identifier [i] that is not applied:
    those below [i], the candidates with identifier [i] in the order of the
    collection, those above [i]. *)
Lemma pending_split (ms : list Migration) (applied : gset string) (i : string) :
  i ∉ applied →
  pending ms applied =
    filter (λ m, Str.lt (id m) i) (pending ms applied) ++
    filter (λ m, id m = i) ms ++
    filter (λ m, Str.lt i (id m)) (pending ms applied).
Proof.
  intros Hnew.
  rewrite (ascending_split_key id i (pending ms applied)) at 1;
    [|apply ascending_filter, sorted_ascending].
  f_equal. f_equal. unfold pending.
  rewrite filter_comm, sorted_stable. apply filter_all.
  apply Forall_forall. intros m [Hm _]%list_elem_of_filter. by rewrite Hm.
Qed.

(** C9, as the code has it. Take a collection that passes the ordering
    check on an idle connection and in which [m1] and [m2] are the first two
    candidates with the identifier [i], which is not applied. When the
    pending migrations below [i] are applied and the procedures of [m1] and
    [m2] complete, [m1] is applied and committed, and [m2] fails at the
    insert of its row, on the primary key; the run raises, with one row for
    [i] in the store. When the procedure of [m2] leaves the transaction
    alone, [m2] is rolled back and the cause of the run's error is that
    apply failure; otherwise the cause is that apply failure or the error of
    a rollback without a transaction. Nothing checks for duplicate
    identifiers before migrations are applied. *)
Theorem run_migrations_duplicate_id
    (ms rest : list Migration) (m1 m2 : Migration) (i : string)
    (w w2 : World) (t1 t2 : list string) :
  idle w →
  validate_migration_order ms (applied_set w) = Ok tt →
  filter (λ m, id m = i) ms = m1 :: m2 :: rest →
  i ∉ applied_set w →
  for_each (filter (λ m, Str.lt (id m) i) (pending ms (applied_set w)))
    apply_migration (prelude w) = (Ok tt, w2) →
  in_transaction m1 (tables (committed (con w2))) = (t1, None) →
  in_transaction m2 t1 = (t2, None) →
  let pk := ConstraintException
              ("Duplicate key " +:+ i +:+ " violates primary key constraint") in
  let failure := MigrationError ("Migration " +:+ i +:+ " failed: " +:+ str pk) (Some pk) in
  ∃ w' e,
    run_migrations ms w =
      (Raise (MigrationError "Failed to run migrations" (Some e)), w') ∧
    (e = failure ∨ e = no_transaction) ∧
    txn (con w') = None ∧
    applied_ids (committed (con w')) = applied_ids (committed (con w2)) ++ [i] ∧
    (∃ calls, trace w' = trace w2 ++ commit_events m1 ++ calls ∧
              runs_of calls = [i] ∧ ECommit ∉ calls) ∧
    (only_statements m2 →
     e = failure ∧
     trace w' = trace w2 ++ commit_events m1 ++
                rollback_events m2 [EExecute (InsertMigration i)] pk ++
                [ELog ERROR "Migration failed, application startup aborted"] ∧
     tables (committed (con w')) = t1).
Proof.
  intros Hidle Hval Hdup Hnew Hpre Hrun1 Hrun2 pk failure.
  assert (id m1 = i ∧ id m2 = i) as [Hid1 Hid2].
  { assert (m1 ∈ filter (λ m, id m = i) ms) as H1 by (rewrite Hdup; set_solver).
    assert (m2 ∈ filter (λ m, id m = i) ms) as H2 by (rewrite Hdup; set_solver).
    apply list_elem_of_filter in H1 as [H1 _]. by apply list_elem_of_filter in H2 as [H2 _]. }
  set (pre := filter (λ m, Str.lt (id m) i) (pending ms (applied_set w))) in *.
  assert (idle (prelude w)) as Hidle1 by by apply prelude_idle.
  assert (is_Some (_migrations (committed (con (prelude w))))) as Hsome.
  { rewrite (prelude_committed w Hidle), ensure_store_exists. by eexists. }
  destruct (for_each_apply_ok' pre _ _ Hidle1 Hsome Hpre) as (Hcon & Htr & _ & _).
  rewrite prelude_clock, (prelude_committed w Hidle), applied_db_ensure_store in Hcon.
  assert (idle w2) as Hidle2 by (unfold idle; by rewrite Hcon).
  (* the first of the two is applied *)
  set (rows2 := default [] (_migrations (committed (con w))) ++
                (row_of (clock (con w)) <$> pre)).
  assert (_migrations (committed (con w2)) = Some rows2) as Hrows2 by by rewrite Hcon.
  assert (clock (con w2) = clock (con w)) as Hclock by by rewrite Hcon.
  assert (i ∉ row_id <$> rows2) as Hfresh.
  { unfold rows2. rewrite fmap_app. intros [Hin|Hin]%elem_of_app.
    - apply Hnew. rewrite (applied_set_idle w Hidle). apply elem_of_list_to_set.
      unfold applied_ids. by destruct (_migrations (committed (con w))).
    - rewrite <- list_fmap_compose in Hin.
      apply list_elem_of_fmap in Hin as (p & Hp & Hin). simpl in Hp.
      apply list_elem_of_filter in Hin as [Hlt _]. rewrite <- Hp in Hlt.
      by apply StrFacts.lt_irrefl in Hlt. }
  pose proof (apply_migration_commits m1 w2 t1 [] _ Hidle2 Hrun1
                (insert_fresh (id m1) (clock (con w2))
                   {| tables := t1; _migrations := _migrations (committed (con w2)) |}
                   rows2 Hrows2 ltac:(by rewrite Hid1))) as Happ1.
  cbn [tables] in Happ1.
  set (w3 := {| con := {| committed :=
                            {| tables := t1;
                               _migrations := Some (rows2 ++ [{| row_id := id m1;
                                                                 applied_at := clock (con w2) |}]) |};
                          txn := None; clock := clock (con w2) |};
                trace := trace w2 ++
                  [ELog INFO ("Applying migration " +:+ id m1); EBegin; ERun (id m1);
                   EExecute (InsertMigration (id m1)); ECommit;
                   ELog INFO ("Successfully applied migration " +:+ id m1)] |}) in *.
  (* the second fails on the primary key *)
  assert (idle w3) as Hidle3 by done.
  assert (id m2 ∈ row_id <$> rows2 ++ [{| row_id := id m1; applied_at := clock (con w2) |}])
    as Hdupkey.
  { rewrite fmap_app. apply elem_of_app. right. simpl. rewrite Hid1, Hid2.
    by apply list_elem_of_singleton. }
  pose proof (insert_duplicate (id m2) (clock (con w3))
                {| tables := t2; _migrations := _migrations (committed (con w3)) |}
                _ eq_refl Hdupkey) as Hins.
  rewrite Hid2 in Hins. fold pk in Hins. rewrite <- Hid2 in Hins at 1.
  assert (run_migrations ms w =
            (let (r, w4) := apply_migration m2 w3 in
             match r with
             | Ok _ => (Ok tt, w4)
             | Raise e =>
                 (Raise (run_failure e),
                  {| con := con w4;
                     trace := trace w4 ++
                       [ELog ERROR "Migration failed, application startup aborted"] |})
             end) ∨
          ∃ w4, apply_migration m2 w3 = (Ok tt, w4)) as [Hunfold|[w4 Hok]].
  { destruct (apply_migration m2 w3) as [[[]|e] w4] eqn:Happ2; [right; by eexists|left].
    rewrite run_migrations_unfold, Hval, (pending_split ms _ i Hnew), Hdup.
    fold pre. rewrite for_each_app, Hpre.
    cbn [app for_each]. unfold mbind at 1, M_bind at 1. rewrite Happ1.
    unfold mbind at 1, M_bind at 1. by rewrite Happ2. }
  2:{ destruct (apply_migration_ok m2 w3 w4 Hidle3 Hok) as (t & rows & _ & Hrows & Hnot & _).
      cbn [w3 con committed _migrations] in Hrows. injection Hrows as <-. done. }
  assert (applied_ids (committed (con w3)) = applied_ids (committed (con w2)) ++ [i]) as Hids3.
  { unfold w3, applied_ids. cbn [con committed _migrations].
    by rewrite Hrows2, fmap_app, Hid1. }
  destruct (apply_migration_insert_except m2 w3 t2 pk _ Hidle3 Hrun2 Hins)
    as (c2 & Hrec & Hck & Happ2).
  assert (trace w3 = trace w2 ++ commit_events m1) as Htr3 by done.
  destruct (except_clause_cases m2 pk c2 (trace w3) [EExecute (InsertMigration (id m2))])
    as [[Htx Hc]|[Htx Hc]]; rewrite Hc in Happ2.
  - rewrite Happ2 in Hunfold. cbn [con trace] in Hunfold.
    eexists _, _. split; [exact Hunfold|]. cbn [con trace committed txn].
    split; [left; unfold apply_failure, failure; by rewrite Hid2|].
    split; [done|].
    split; [unfold applied_ids in *; by rewrite Hrec|].
    split.
    { eexists. split; [rewrite Htr3, <- !app_assoc; reflexivity|].
      rewrite runs_of_app, (runs_of_rollback_events m2 _ pk (or_intror eq_refl)).
      split; [by rewrite Hid2|]. intros [Hin|Hin]%elem_of_app.
      - by apply (rollback_events_no_commit m2 _ pk (or_intror eq_refl)).
      - apply list_elem_of_singleton in Hin. discriminate. }
    intros Hm2.
    pose proof (apply_migration_insert_raises m2 w3 t2 pk _ Hidle3 Hm2 Hrun2 Hins) as Happ2'.
    rewrite Happ2 in Happ2'. injection Happ2' as Hcm _.
    split; [unfold apply_failure, failure; by rewrite Hid2|].
    split; [|by rewrite Hcm].
    rewrite Htr3, Hid2. unfold rollback_events. by rewrite <- !app_assoc.
  - rewrite Happ2 in Hunfold. cbn [con trace] in Hunfold.
    eexists _, _. split; [exact Hunfold|]. cbn [con trace committed txn].
    split; [by right|]. split; [done|].
    split; [unfold applied_ids in *; by rewrite Hrec|].
    split.
    { eexists. split; [rewrite Htr3, <- !app_assoc; reflexivity|].
      rewrite runs_of_app, (runs_of_escape_events m2 _ (or_intror eq_refl)).
      split; [by rewrite Hid2|]. intros [Hin|Hin]%elem_of_app.
      - by apply (escape_events_no_commit m2 _ (or_intror eq_refl)).
      - apply list_elem_of_singleton in Hin. discriminate. }
    intros Hm2.
    pose proof (apply_migration_insert_raises m2 w3 t2 pk _ Hidle3 Hm2 Hrun2 Hins) as Happ2'.
    rewrite Happ2 in Happ2'. discriminate.
Qed.

Lemma run_migrations_duplicate_id_witness :
  idle fresh ∧
  validate_migration_order [m2; m1; m2_again] (applied_set fresh) = Ok tt ∧
  filter (λ m, id m = "20240320000002") [m2; m1; m2_again] = m2 :: m2_again :: [] ∧
  ("20240320000002" ∉ applied_set fresh) ∧
  only_statements m2_again ∧
  ∃ w', (run_migrations [m2; m1; m2_again] fresh).2 = w' ∧
        tables (committed (con w')) = ["test1"; "test2"] ∧
        applied_ids (committed (con w')) = ["20240320000001"; "20240320000002"].
Proof.
  assert (idle fresh) as Hidle by reflexivity.
  assert (validate_migration_order [m2; m1; m2_again] (applied_set fresh) = Ok tt)
    as Hval by (vm_compute; reflexivity).
  assert (filter (λ m, id m = "20240320000002") [m2; m1; m2_again] = m2 :: m2_again :: [])
    as Hdup by (vm_compute; reflexivity).
  assert ("20240320000002" ∉ applied_set fresh) as Hnew.
  { intros H. apply elem_of_list_to_set in H. inversion H. }
  assert (for_each (filter (λ m, Str.lt (id m) "20240320000002")
                      (pending [m2; m1; m2_again] (applied_set fresh)))
            apply_migration (prelude fresh) =
          (Ok tt, (for_each [m1] apply_migration (prelude fresh)).2))
    as Hpre by (vm_compute; reflexivity).
  assert (in_transaction m2
            (tables (committed (con (for_each [m1] apply_migration (prelude fresh)).2)))
          = (["test1"; "test2"], None)) as Hrun1 by (vm_compute; reflexivity).
  assert (in_transaction m2_again ["test1"; "test2"] = (["test1"; "test2"; "test2b"], None))
    as Hrun2 by (vm_compute; reflexivity).
  assert (only_statements m2_again) as Hst by (repeat constructor).
  split; [exact Hidle|]. split; [exact Hval|]. split; [exact Hdup|]. split; [exact Hnew|].
  split; [exact Hst|].
  destruct (run_migrations_duplicate_id _ _ _ _ _ _ _ _ _
              Hidle Hval Hdup Hnew Hpre Hrun1 Hrun2)
    as (w' & e & Hrun & _ & _ & Hids & _ & Honly).
  exists w'. split; [by rewrite Hrun|].
  destruct (Honly Hst) as (_ & _ & Htab).
  split; [exact Htab|]. rewrite Hids.
  vm_compute. reflexivity.
Defined.

(** C9 does not hold for every collection with two migrations of one
    identifier: when the procedure of the first of them raises, that one is
    not applied and the second is never reached; and when the procedure of
    the second has committed by itself, the second is not rolled back and
    the error is not an apply failure. *)
Lemma duplicate_id_first_fails :
  (filter (λ m, id m = "20240320000002") [m2_bad; m2] = [m2_bad; m2] ∧
   ("20240320000002" ∉ applied_set fresh) ∧
   (run_migrations [m2_bad; m2] fresh).1 =
     Raise (run_failure (apply_failure m2_bad (Exception "Migration failed"))) ∧
   applied_ids (committed (con (run_migrations [m2_bad; m2] fresh).2)) = [] ∧
   runs_of (trace (run_migrations [m2_bad; m2] fresh).2) = ["20240320000002"]) ∧
  (filter (λ m, id m = "20240320000002") [m2; m2_commits] = [m2; m2_commits] ∧
   (run_migrations [m2; m2_commits] fresh).1 =
     Raise (run_failure
              (TransactionException "cannot rollback - no transaction is active")) ∧
   applied_ids (committed (con (run_migrations [m2; m2_commits] fresh).2)) =
     ["20240320000002"] ∧
   tables (committed (con (run_migrations [m2; m2_commits] fresh).2)) = ["test2"; "leak"]).
Proof.
  split.
  - split; [by vm_compute|]. split.
    { intros H. apply elem_of_list_to_set in H. inversion H. }
    split; [by vm_compute|]. split; by vm_compute.
  - split; [by vm_compute|]. split; [by vm_compute|]. split; by vm_compute.
Qed.

(** ** Run after run *)

Lemma count_app {A : Type} `{!EqDecision A} (x : A) (l k : list A) :
  count x (l ++ k) = (count x l + count x k)%nat.
Proof. unfold count. by rewrite filter_app, length_app. Qed.

Lemma count_cons {A : Type} `{!EqDecision A} (x y : A) (l : list A) :
  count x (y :: l) = ((if decide (y = x) then 1 else 0) + count x l)%nat.
Proof. unfold count. rewrite filter_cons. by destruct (decide (y = x)). Qed.

Lemma count_NoDup {A : Type} `{!EqDecision A} (x : A) (l : list A) :
  NoDup l → (count x l ≤ 1)%nat.
Proof.
  induction 1 as [|y l Hy Hl IH]; [unfold count; simpl; lia|].
  rewrite count_cons. destruct (decide (y = x)) as [->|]; [|simpl; lia].
  assert (count x l = 0%nat) as ->; [|lia].
  unfold count. rewrite (filter_none (λ y, y = x) l); [done|].
  apply Forall_forall. by intros z Hz ->.
Qed.

Lemma count_not_in {A : Type} `{!EqDecision A} (x : A) (l : list A) :
  x ∉ l → count x l = 0%nat.
Proof.
  intros Hx. unfold count. rewrite (filter_none (λ y, y = x) l); [done|].
  apply Forall_forall. by intros z Hz ->.
Qed.

Lemma count_in {A : Type} `{!EqDecision A} (x : A) (l : list A) :
  (0 < count x l)%nat → x ∈ l.
Proof.
  intros Hpos. destruct (decide (x ∈ l)) as [|Hx]; [done|].
  rewrite (count_not_in x l Hx) in Hpos. lia.
Qed.

Lemma successes_app (i : string) (t1 t2 : list Event) :
  successes i (t1 ++ t2) = (successes i t1 + successes i t2)%nat.
Proof. apply count_app. Qed.

Lemma applying_is_not_success (a b : string) :
  "Applying migration " +:+ a ≠ "Successfully applied migration " +:+ b.
Proof.
  intros H.
  apply (f_equal (λ s, match s with String c _ => Some c | EmptyString => None end)) in H.
  vm_compute in H. discriminate H.
Qed.

Lemma ELog_msg (l1 l2 : Level) (s1 s2 : string) : ELog l1 s1 = ELog l2 s2 → s1 = s2.
Proof.
  intros H. exact (f_equal (λ e, match e with ELog _ s => s | _ => s1 end) H).
Qed.

Lemma successes_commit_events (i : string) (m : Migration) :
  successes i (commit_events m) = count i [id m].
Proof.
  unfold successes, commit_events. rewrite !count_cons.
  destruct (decide (ELog INFO ("Applying migration " +:+ id m) = _)) as [H|_].
  { by apply ELog_msg, applying_is_not_success in H. }
  repeat (destruct (decide (_ = ELog INFO _)) as [H|_]; [discriminate H|]).
  destruct (decide (ELog INFO _ = _)) as [H|H]; destruct (decide (id m = i)) as [Hi|Hi];
    try done.
  - by apply ELog_msg, (inj (String.append _)) in H.
  - by rewrite Hi in H.
Qed.

Lemma successes_commits (i : string) (l : list Migration) :
  successes i (l ≫= commit_events) = count i (id <$> l).
Proof.
  induction l as [|m l IH]; [done|].
  change ((m :: l) ≫= commit_events) with (commit_events m ++ (l ≫= commit_events)).
  rewrite successes_app, successes_commit_events, IH.
  change (id <$> m :: l) with ([id m] ++ (id <$> l)). by rewrite count_app.
Qed.

Lemma successes_rollback_events (i : string) (m : Migration) (calls : list Event) (cause : exn) :
  calls = [] ∨ calls = [EExecute (InsertMigration (id m))] →
  successes i (rollback_events m calls cause) = 0%nat.
Proof.
  intros Hcalls. unfold successes, rollback_events.
  destruct Hcalls as [-> | ->]; simpl; rewrite !count_cons;
    (destruct (decide (ELog INFO ("Applying migration " +:+ id m) = _)) as [H|_];
     [by apply ELog_msg, applying_is_not_success in H|]);
    repeat (destruct (decide (_ = ELog INFO _)) as [H|_]; [discriminate H|]);
    done.
Qed.

Lemma successes_escape_events (i : string) (m : Migration) (calls : list Event) :
  calls = [] ∨ calls = [EExecute (InsertMigration (id m))] →
  successes i (escape_events m calls) = 0%nat.
Proof.
  intros Hcalls. unfold successes, escape_events.
  destruct Hcalls as [-> | ->]; simpl; rewrite !count_cons;
    (destruct (decide (ELog INFO ("Applying migration " +:+ id m) = _)) as [H|_];
     [by apply ELog_msg, applying_is_not_success in H|]);
    repeat (destruct (decide (_ = ELog INFO _)) as [H|_]; [discriminate H|]);
    done.
Qed.

(** A failing [apply_migration] on an idle connection reports no success. *)
Lemma apply_migration_raises_successes (m : Migration) (w w' : World) (e : exn) :
  idle w →
  apply_migration m w = (Raise e, w') →
  idle w' ∧
  applied_ids (committed (con w')) = applied_ids (committed (con w)) ∧
  ∃ evs, trace w' = trace w ++ evs ∧ runs_of evs = [id m] ∧
         ∀ i, successes i evs = 0%nat.
Proof.
  intros Hidle Happ.
  destruct (apply_migration_raises m w w' e Hidle Happ)
    as (Hidle' & Hck & Hrec & cause & calls & _ & Hcalls & Hhow & _).
  split; [done|]. split; [unfold applied_ids; by rewrite Hrec|].
  destruct Hhow as [[_ ->]|[_ ->]]; eexists; (split; [done|]); split.
  - by apply runs_of_rollback_events.
  - intros i. by apply successes_rollback_events.
  - by apply runs_of_escape_events.
  - intros i. by apply successes_escape_events.
Qed.

Lemma not_in_applied_set (w : World) (i : string) :
  idle w → i ∈ applied_ids (committed (con w)) → i ∈ applied_set w.
Proof. intros Hidle Hi. rewrite (applied_set_idle w Hidle). by apply elem_of_list_to_set. Qed.

(** One run on an idle connection whose store has no identifier twice:
    the identifiers it records are new and distinct, each is reported once,
    and no procedure with a recorded identifier is invoked. *)
Lemma run_migrations_step (ms : list Migration) (w : World) :
  idle w →
  NoDup (applied_ids (committed (con w))) →
  let w' := (run_migrations ms w).2 in
  idle w' ∧
  ∃ delta done,
    trace w' = trace w ++ delta ∧
    applied_ids (committed (con w')) = applied_ids (committed (con w)) ++ done ∧
    NoDup (applied_ids (committed (con w)) ++ done) ∧
    (∀ i, successes i delta = count i done) ∧
    (∀ i, i ∈ applied_ids (committed (con w)) → i ∉ runs_of delta).
Proof.
  intros Hidle Hnd0. cbv zeta.
  set (todo := pending ms (applied_set w)).
  set (store := [EExecute CreateMigrationsTable; EExecute SelectMigrationIds]).
  assert (∀ ids k, id <$> todo = ids ++ k →
            ∀ i, i ∈ applied_ids (committed (con w)) → i ∉ ids) as Hskip.
  { intros ids k Hk i Hi Hin. apply (pending_not_applied ms (applied_set w) i).
    - fold todo. rewrite Hk. apply elem_of_app. by left.
    - by apply not_in_applied_set. }
  destruct (run_migrations_idle ms w Hidle)
    as [(e & _ & Heq)|[(_ & Hnd & Heq)|(_ & pre & m & post & e & w3 & Hsplit & Hnd
                                         & Happ & Heq)]];
    rewrite Heq; cbn [snd con trace committed].
  - split; [done|].
    exists (store ++ [ELog ERROR "Migration failed, application startup aborted"]), [].
    rewrite applied_ids_ensure_store, app_nil_r.
    repeat split; try done. intros i Hi Hin. inversion Hin.
  - split; [done|].
    exists (store ++ todo ≫= commit_events), (id <$> todo).
    split; [done|]. split; [apply applied_ids_applied_db|].
    split.
    { apply NoDup_app. repeat split; try done.
      apply (Hskip _ []). by rewrite app_nil_r. }
    split.
    { intros i. rewrite successes_app, successes_commits. done. }
    assert (runs_of (store ++ todo ≫= commit_events) = id <$> todo) as ->.
    { rewrite runs_of_app, runs_of_commit_events. done. }
    apply (Hskip _ []). by rewrite app_nil_r.
  - apply apply_migration_raises_successes in Happ
      as (Hidle3 & Hids3 & evs & Htr & Hevs & Hsucc); [|done].
    cbn [con trace committed] in Hids3, Htr.
    split; [done|].
    exists (store ++ (pre ≫= commit_events) ++ evs ++
            [ELog ERROR "Migration failed, application startup aborted"]), (id <$> pre).
    split; [rewrite Htr; by rewrite <- !app_assoc|].
    split; [rewrite Hids3; apply applied_ids_applied_db|].
    assert (id <$> todo = (id <$> pre) ++ id m :: (id <$> post)) as Hids.
    { unfold todo. by rewrite Hsplit, fmap_app. }
    split.
    { apply NoDup_app. repeat split; try done. by apply (Hskip _ _ Hids). }
    split.
    { intros i.
      rewrite !successes_app, successes_commits, Hsucc.
      simpl. unfold successes. rewrite count_cons.
      destruct (decide _) as [H|_]; [discriminate H|]. simpl.
      unfold count at 2. simpl. lia. }
    assert (runs_of (store ++ (pre ≫= commit_events) ++ evs ++
                     [ELog ERROR "Migration failed, application startup aborted"])
            = (id <$> pre) ++ [id m]) as ->.
    { rewrite !runs_of_app, runs_of_commit_events, Hevs. done. }
    apply (Hskip _ (id <$> post)).
    by rewrite Hids, <- app_assoc.
Qed.

Lemma run_many_app (bs1 bs2 : list (list Migration)) (w : World) :
  run_many (bs1 ++ bs2) w = run_many bs2 (run_many bs1 w).
Proof. revert w. induction bs1 as [|ms bs1 IH]; intros w; simpl; [done|apply IH]. Qed.

(** What holds after any number of runs on a connection that was idle and
    whose store had no identifier twice. *)
Lemma run_many_inv (batches : list (list Migration)) (w : World) :
  idle w →
  NoDup (applied_ids (committed (con w))) →
  let w' := run_many batches w in
  idle w' ∧
  ∃ delta done,
    trace w' = trace w ++ delta ∧
    applied_ids (committed (con w')) = applied_ids (committed (con w)) ++ done ∧
    NoDup (applied_ids (committed (con w)) ++ done) ∧
    (∀ i, successes i delta = count i done) ∧
    (∀ i, i ∈ applied_ids (committed (con w)) → i ∉ runs_of delta).
Proof.
  revert w. induction batches as [|ms batches IH]; intros w Hidle Hnd; cbv zeta.
  - simpl. split; [done|]. exists [], []. rewrite !app_nil_r.
    repeat split; try done. intros i _ Hin. inversion Hin.
  - cbn [run_many].
    destruct (run_migrations_step ms w Hidle Hnd)
      as (Hidle1 & delta1 & done1 & Htr1 & Hids1 & Hnd1 & Hsucc1 & Hruns1).
    rewrite <- Hids1 in Hnd1.
    destruct (IH _ Hidle1 Hnd1)
      as (Hidle2 & delta2 & done2 & Htr2 & Hids2 & Hnd2 & Hsucc2 & Hruns2).
    split; [done|]. exists (delta1 ++ delta2), (done1 ++ done2).
    rewrite Htr2, Htr1, Hids2, Hids1, <- !app_assoc.
    rewrite Hids1, <- app_assoc in Hnd2.
    repeat split; try done.
    + intros i. by rewrite successes_app, count_app, Hsucc1, Hsucc2.
    + intros i Hi. rewrite runs_of_app. intros [Hin|Hin]%elem_of_app.
      * by apply (Hruns1 i).
      * apply (Hruns2 i); [|done]. rewrite Hids1. apply elem_of_app. by left.
Qed.

(** C5, as the code has it. Over any sequence of runs on a connection that
    starts idle with no identifier twice in its store: a migration with a
    given identifier is reported applied (its procedure's effect and its row
    committed) at most once, and never if the identifier was recorded at the
    start; once its row is in the store, no later run invokes a procedure
    with that identifier; the rows recorded stay, and the store never holds
    an identifier twice. *)
Theorem applied_at_most_once
    (bs1 bs2 : list (list Migration)) (w : World) (i : string) :
  idle w →
  NoDup (applied_ids (committed (con w))) →
  let w1 := run_many bs1 w in
  let w2 := run_many (bs1 ++ bs2) w in
  ∃ delta1 delta2,
    trace w1 = trace w ++ delta1 ∧
    trace w2 = trace w1 ++ delta2 ∧
    (successes i (delta1 ++ delta2) ≤ 1)%nat ∧
    (i ∈ applied_ids (committed (con w)) → successes i (delta1 ++ delta2) = 0%nat) ∧
    ((0 < successes i delta1)%nat → i ∈ applied_ids (committed (con w1))) ∧
    (i ∈ applied_ids (committed (con w1)) → i ∉ runs_of delta2) ∧
    applied_ids (committed (con w)) `prefix_of` applied_ids (committed (con w2)) ∧
    NoDup (applied_ids (committed (con w2))) ∧
    (count i (applied_ids (committed (con w2))) ≤ 1)%nat.
Proof.
  intros Hidle Hnd. cbv zeta. rewrite run_many_app.
  destruct (run_many_inv bs1 w Hidle Hnd)
    as (Hidle1 & delta1 & done1 & Htr1 & Hids1 & Hnd1 & Hsucc1 & Hruns1).
  assert (NoDup (applied_ids (committed (con (run_many bs1 w))))) as Hnd1'
    by by rewrite Hids1.
  destruct (run_many_inv bs2 _ Hidle1 Hnd1')
    as (Hidle2 & delta2 & done2 & Htr2 & Hids2 & Hnd2 & Hsucc2 & Hruns2).
  exists delta1, delta2. split; [done|]. split; [done|].
  rewrite Hids1, <- app_assoc in Hnd2.
  assert (successes i (delta1 ++ delta2) = count i (done1 ++ done2)) as Hsucc.
  { by rewrite successes_app, count_app, Hsucc1, Hsucc2. }
  split.
  { rewrite Hsucc. apply count_NoDup.
    apply NoDup_app in Hnd2 as (_ & _ & Hnd2). done. }
  split.
  { intros Hi. rewrite Hsucc. apply count_not_in.
    apply NoDup_app in Hnd2 as (_ & Hdisj & _). by apply Hdisj. }
  split.
  { rewrite Hsucc1, Hids1. intros Hpos%count_in. apply elem_of_app. by right. }
  split; [apply Hruns2|].
  split.
  { rewrite Hids2, Hids1, <- app_assoc. by eexists. }
  rewrite Hids2, Hids1, <- app_assoc.
  split; [done|by apply count_NoDup].
Qed.

Lemma applied_at_most_once_witness :
  idle fresh ∧
  NoDup (applied_ids (committed (con fresh))) ∧
  NoDup (applied_ids (committed (con (run_many ([[m1; m2]] ++ [[m1; m2; m3]]) fresh)))).
Proof.
  assert (idle fresh) as Hidle by reflexivity.
  assert (NoDup (applied_ids (committed (con fresh)))) as Hnd by constructor.
  split; [exact Hidle|]. split; [exact Hnd|].
  destruct (applied_at_most_once [[m1; m2]] [[m1; m2; m3]] fresh "20240320000001" Hidle Hnd)
    as (delta1 & delta2 & _ & _ & _ & _ & _ & _ & _ & H & _).
  exact H.
Defined.

(** C5 does not hold as worded: a procedure is invoked again by the next
    run when it failed, and twice in one run when the collection lists its
    migration twice. *)
Lemma procedure_invoked_twice :
  idle ready ∧
  count "20240320000002" (runs_of (trace (run_many [[m2_bad]; [m2_bad]] ready))) = 2%nat ∧
  count "20240320000002" (runs_of (trace (run_many [[m2; m2]] ready))) = 2%nat.
Proof. split; [reflexivity|]. split; by vm_compute. Qed.

(** ** The test suite, replayed *)

Example test_get_applied_migrations_empty :
  (get_applied_migrations ready).1 = Ok [].
Proof. reflexivity. Qed.

Example test_get_applied_migrations :
  let w := (execute (InsertMigration "20240320000001")
              (execute (InsertMigration "20240320000000") ready).2).2 in
  (get_applied_migrations w).1 = Ok ["20240320000000"; "20240320000001"].
Proof. by vm_compute. Qed.

Example test_validate_migration_order_valid :
  validate_migration_order
    [{| id := "20240320000000"; run := [] |}; m1; m2]
    {["20240320000000"; "20240320000001"]} = Ok tt.
Proof. by vm_compute. Qed.

Example test_validate_migration_order_invalid :
  validate_migration_order [m1; m2] {["20240320000002"]} =
    Raise (MigrationError
             "Found new migration(s) with ID lower than latest applied migration 20240320000002"
             None).
Proof. by vm_compute. Qed.

Example test_apply_migration_creates_table_and_records_success :
  let '(r, w) := apply_migration m1 ready in
  r = Ok tt ∧
  applied_ids (committed (con w)) = ["20240320000001"] ∧
  tables (committed (con w)) = ["test1"] ∧
  runs_of (trace w) = ["20240320000001"].
Proof. by vm_compute. Qed.

Example test_apply_migration_failure :
  let '(r, w) := apply_migration m1_twice ready in
  r = Raise (MigrationError
               "Migration 20240320000001 failed: Table with name test_table already exists!"
               (Some (CatalogException "Table with name test_table already exists!"))) ∧
  applied_ids (committed (con w)) = [] ∧
  tables (committed (con w)) = [].
Proof. by vm_compute. Qed.

Example test_run_migrations_success :
  let '(r, w) := run_migrations [m1; m2] fresh in
  r = Ok tt ∧
  applied_ids (committed (con w)) = ["20240320000001"; "20240320000002"] ∧
  tables (committed (con w)) = ["test1"; "test2"].
Proof. by vm_compute. Qed.

Example test_run_migrations_failure :
  let '(r, w) := run_migrations [m1; m2_bad; m3] fresh in
  r = Raise (MigrationError "Failed to run migrations"
               (Some (MigrationError "Migration 20240320000002 failed: Migration failed"
                        (Some (Exception "Migration failed"))))) ∧
  applied_ids (committed (con w)) = ["20240320000001"] ∧
  tables (committed (con w)) = ["test1"].
Proof. by vm_compute. Qed.

(** Section 8, idempotent re-run: after [m1; m2], a run with [m1; m2; m3]
    invokes the procedure of [m3] only and leaves three rows. *)
Example idempotent_rerun :
  let w := run_many [[m1; m2]] fresh in
  let '(r, w') := run_migrations [m1; m2; m3] w in
  r = Ok tt ∧
  runs_of (trace w') = runs_of (trace w) ++ ["20240320000003"] ∧
  applied_ids (committed (con w')) =
    ["20240320000001"; "20240320000002"; "20240320000003"].
Proof. by vm_compute. Qed.


(** ** Discovery *)

Lemma startswith_m_not_dunder (s : string) :
  startswith s "m" = true → startswith s "__" = false.
Proof.
  unfold startswith. destruct s as [|[b0 b1 b2 b3 b4 b5 b6 b7] s]; [done|].
  destruct b0, b1, b2, b3, b4, b5, b6, b7; simpl; congruence.
Qed.

Lemma substring_all (s : string) : String.substring 0 (String.length s) s = s.
Proof. induction s as [|c s IH]; simpl; [done|by rewrite IH]. Qed.

Lemma substring_split (n : nat) (s : string) :
  (n ≤ String.length s)%nat →
  String.substring 0 n s +:+ String.substring n (String.length s - n) s = s.
Proof.
  revert n. induction s as [|c s IH]; intros [|n] Hn; simpl in *; try done; try lia.
  - by rewrite substring_all.
  - unfold String.append; fold String.append. rewrite IH; [done|lia].
Qed.

(** Cutting a suffix off and putting it back. *)
Lemma drop_last_endswith (s p : string) :
  endswith s p = true → drop_last (String.length p) s +:+ p = s.
Proof.
  unfold endswith, drop_last. intros [Hlen Heq]%andb_prop.
  apply Nat.leb_le in Hlen. apply String.eqb_eq in Heq.
  pose proof (substring_split (String.length s - String.length p) s) as H.
  replace (String.length s - (String.length s - String.length p))%nat
    with (String.length p) in H by lia.
  rewrite Heq in H. apply H. lia.
Qed.

Lemma load_condition (filename : string) :
  startswith filename "m" && endswith filename ".py" && negb (startswith filename "__")
  = migration_file filename.
Proof.
  unfold migration_file. destruct (startswith filename "m") eqn:Hm; [|done].
  rewrite (startswith_m_not_dunder _ Hm). by destruct (endswith _ _).
Qed.

(** The loop, started with lists already built. *)
Lemma load_files_acc (dir : string) (file : string → PyFile) (names : list string)
    (ms : list Migration) (seen : list Discovery) :
  load_files dir file names ms seen =
    (match (load_files dir file names [] []).1 with
     | Ok l => Ok (ms ++ l)
     | Raise e => Raise e
     end,
     seen ++ (load_files dir file names [] []).2).
Proof.
  revert ms seen. induction names as [|n names IH]; intros ms seen.
  - simpl. by rewrite !app_nil_r.
  - cbn [load_files]. rewrite load_condition.
    destruct (migration_file n); [|apply IH].
    destruct (file n) as [|e|[m|]]; [apply IH|done| |].
    + rewrite (IH (ms ++ [m])), (IH ([] ++ [m])). simpl.
      destruct (load_files dir file names [] []).1; by rewrite <- !app_assoc.
    + rewrite (IH ms (seen ++ _)), (IH [] ([] ++ _)). simpl.
      destruct (load_files dir file names [] []).1; by rewrite <- !app_assoc.
Qed.

Lemma load_files_cons (dir : string) (file : string → PyFile) (n : string)
    (names : list string) :
  load_files dir file (n :: names) [] [] =
    if migration_file n then
      match file n with
      | NoLoader => load_files dir file names [] []
      | ExecRaises e => (Raise e, [ExecModule (drop_last 3 n) (path_join dir n)])
      | PyModule o =>
          (match (load_files dir file names [] []).1 with
           | Ok l => Ok (option_list o ++ l)
           | Raise e => Raise e
           end,
           ExecModule (drop_last 3 n) (path_join dir n) ::
           match o with
           | Some _ => []
           | None => [Warning ("Migration file " +:+ n +:+ " has no 'migration' export")]
           end ++
           (load_files dir file names [] []).2)
      end
    else load_files dir file names [] [].
Proof.
  cbn [load_files]. rewrite load_condition.
  destruct (migration_file n); [|done].
  destruct (file n) as [|e|[m|]]; [done|done| |].
  - by rewrite load_files_acc.
  - rewrite load_files_acc. simpl. by destruct (load_files dir file names [] []).1.
Qed.

Lemma module_name_back (filename : string) :
  migration_file filename = true → drop_last 3 filename +:+ ".py" = filename.
Proof.
  unfold migration_file. intros [_ Hpy]%andb_prop.
  exact (drop_last_endswith filename ".py" Hpy).
Qed.

(** Every module the loop executes belongs to a name of the list that
    starts with [m] and ends with [.py], and has a loader. *)
Lemma load_files_executes (dir : string) (file : string → PyFile) (names : list string)
    (name path : string) :
  ExecModule name path ∈ (load_files dir file names [] []).2 →
  ∃ filename,
    filename ∈ names ∧ migration_file filename = true ∧ file filename ≠ NoLoader ∧
    name = drop_last 3 filename ∧ path = path_join dir filename.
Proof.
  induction names as [|n names IH]; [intros H; inversion H|].
  rewrite load_files_cons.
  assert (ExecModule name path ∈ (load_files dir file names [] []).2 →
          ∃ filename, filename ∈ n :: names ∧ migration_file filename = true ∧
            file filename ≠ NoLoader ∧
            name = drop_last 3 filename ∧ path = path_join dir filename) as Hrest.
  { intros (f & Hf & H)%IH. exists f. split; [by apply elem_of_cons; right|done]. }
  destruct (migration_file n) eqn:Hn; [|done].
  destruct (file n) as [|e|o] eqn:Hfile; [done| |]; cbn [snd].
  - intros [= -> ->]%list_elem_of_singleton. exists n.
    split; [by apply elem_of_cons; left|]. by rewrite Hfile.
  - intros [[= -> ->]|Hin]%elem_of_cons.
    { exists n. split; [by apply elem_of_cons; left|]. by rewrite Hfile. }
    apply elem_of_app in Hin as [Hin|Hin]; [|by apply Hrest].
    destruct o; [inversion Hin|].
    apply list_elem_of_singleton in Hin. discriminate Hin.
Qed.

(** X1. A module that [get_migrations] executes belongs to a listed file
    whose name starts with [m] and ends with [.py] (so not with [__]) and
    that has a loader; the module is named by the file name without its
    extension, and the path is the directory joined with the file name. *)
Theorem get_migrations_executes (dir : string) (d : Directory) (name path : string) :
  ExecModule name path ∈ (get_migrations dir d).2 →
  ∃ names filename,
    listdir d = Ok names ∧
    filename ∈ names ∧
    startswith filename "m" = true ∧
    endswith filename ".py" = true ∧
    startswith filename "__" = false ∧
    file d filename ≠ NoLoader ∧
    name +:+ ".py" = filename ∧
    path = path_join dir filename.
Proof.
  unfold get_migrations. destruct (listdir d) as [names|e]; [|by intros ?%elem_of_nil].
  intros (f & Hf & Hmf & Hload & -> & ->)%load_files_executes.
  exists names, f. rewrite (sorted_perm (λ n, n) names) in Hf.
  pose proof Hmf as [Hm Hpy]%andb_prop.
  repeat split; try done.
  - by apply startswith_m_not_dunder.
  - by apply module_name_back.
Qed.

Lemma get_migrations_executes_witness :
  ExecModule "m20240320000001_a" "/app/migrations/m20240320000001_a.py"
    ∈ (get_migrations "/app/migrations" sample_dir).2 ∧
  ∃ names filename, listdir sample_dir = Ok names ∧ filename ∈ names ∧
    "m20240320000001_a" +:+ ".py" = filename.
Proof.
  assert (ExecModule "m20240320000001_a" "/app/migrations/m20240320000001_a.py"
            ∈ (get_migrations "/app/migrations" sample_dir).2) as Hin.
  { vm_compute. apply list_elem_of_here. }
  split; [exact Hin|].
  destruct (get_migrations_executes _ _ _ _ Hin)
    as (names & f & Hnames & Hf & _ & _ & _ & _ & Hname & _).
  exists names, f. split; [exact Hnames|]. split; [exact Hf|exact Hname].
Defined.

(** The loop when no migration file of the list raises. *)
Lemma load_files_ok (dir : string) (file : string → PyFile) (names : list string) :
  Forall (λ n, migration_file n = true → ¬ raises (file n)) names →
  (load_files dir file names [] []).1 =
    Ok (omap (λ n, exported (file n)) (filter (λ n, migration_file n) names)) ∧
  warnings_of (load_files dir file names [] []).2 =
    (λ n, "Migration file " +:+ n +:+ " has no 'migration' export") <$>
    filter (λ n, migration_file n && lacks_export (file n)) names.
Proof.
  induction 1 as [|n names Hn Hnames [IHr IHw]]; [done|].
  rewrite load_files_cons, !(filter_cons _ n names).
  destruct (migration_file n) eqn:Hmf; simpl; [|done].
  specialize (Hn eq_refl).
  destruct (file n) as [|e|[m|]] eqn:Hfile; simpl in *; try done.
  - rewrite IHr. split; [done|exact IHw].
  - rewrite IHr. split; [done|]. f_equal. exact IHw.
Qed.

(** X2. When no listed migration file raises while it is executed,
    [get_migrations] returns the migrations exported by the listed files
    whose names start with [m] and end with [.py], in ascending order of
    file name, and warns once for each such file that exports none. *)
Theorem get_migrations_returns (dir : string) (d : Directory) (names : list string) :
  listdir d = Ok names →
  Forall (λ n, migration_file n = true → ¬ raises (file d n)) names →
  (get_migrations dir d).1 =
    Ok (omap (λ n, exported (file d n))
          (filter (λ n, migration_file n) (sorted (λ n, n) names))) ∧
  warnings_of (get_migrations dir d).2 =
    (λ n, "Migration file " +:+ n +:+ " has no 'migration' export") <$>
    filter (λ n, migration_file n && lacks_export (file d n)) (sorted (λ n, n) names).
Proof.
  intros Hnames Hok. unfold get_migrations. rewrite Hnames. apply load_files_ok.
  by rewrite (sorted_perm (λ n, n) names).
Qed.

Lemma get_migrations_returns_witness :
  let names := ["m20240320000002_b.py"; "__init__.py"; "m20240320000001_a.py";
                "types.py"; "m_notes.txt"; "m20240320000003_c.py"; "__pycache__"] in
  listdir sample_dir = Ok names ∧
  Forall (λ n, migration_file n = true → ¬ raises (file sample_dir n)) names ∧
  id <$> default [] (match (get_migrations "/app/migrations" sample_dir).1 with
                     | Ok l => Some l
                     | Raise _ => None
                     end) = ["20240320000001"; "20240320000002"] ∧
  warnings_of (get_migrations "/app/migrations" sample_dir).2 =
    ["Migration file m20240320000003_c.py has no 'migration' export"].
Proof.
  intros names.
  assert (listdir sample_dir = Ok names) as Hnames by reflexivity.
  assert (Forall (λ n, migration_file n = true → ¬ raises (file sample_dir n)) names)
    as Hok.
  { repeat constructor; intros _; vm_compute; exact (λ H, H). }
  split; [exact Hnames|]. split; [exact Hok|].
  destruct (get_migrations_returns "/app/migrations" sample_dir names Hnames Hok)
    as [Hr Hw].
  rewrite Hr, Hw. split; vm_compute; reflexivity.
Defined.

Lemma Str_le_antisym : AntiSymm (=) Str.le.
Proof. intros a b. apply StrFacts.le_antisym. Qed.

Lemma sorted_names_perm (l1 l2 : list string) :
  l1 ≡ₚ l2 → sorted (λ n, n) l1 = sorted (λ n, n) l2.
Proof.
  intros Hperm.
  apply (@StronglySorted_unique _ Str.le Str_le_antisym).
  - exact (sorted_ascending (λ n : string, n) l1).
  - exact (sorted_ascending (λ n : string, n) l2).
  - by rewrite !sorted_perm.
Qed.

Lemma load_files_ext (dir : string) (f g : string → PyFile) (names : list string)
    (ms : list Migration) (seen : list Discovery) :
  (∀ n, n ∈ names → f n = g n) →
  load_files dir f names ms seen = load_files dir g names ms seen.
Proof.
  revert ms seen. induction names as [|n names IH]; intros ms seen Hext; [done|].
  cbn [load_files]. rewrite <- (Hext n) by (apply elem_of_cons; by left).
  assert (∀ ms seen, load_files dir f names ms seen = load_files dir g names ms seen)
    as Hrest.
  { intros ms' seen'. apply IH. intros n' Hn'. apply Hext, elem_of_cons. by right. }
  destruct (_ && _); [|apply Hrest].
  destruct (f n) as [|e|[m|]]; try done; apply Hrest.
Qed.

(** X3. What [get_migrations] returns, executes and warns about does not
    depend on the order in which [os.listdir] gives the names. *)
Theorem get_migrations_listing_order
    (dir : string) (d1 d2 : Directory) (names1 names2 : list string) :
  listdir d1 = Ok names1 →
  listdir d2 = Ok names2 →
  names1 ≡ₚ names2 →
  (∀ n, n ∈ names1 → file d1 n = file d2 n) →
  get_migrations dir d1 = get_migrations dir d2.
Proof.
  intros Hnames1 Hnames2 Hperm Hfile. unfold get_migrations. rewrite Hnames1, Hnames2.
  rewrite (sorted_names_perm _ _ Hperm). apply load_files_ext.
  intros n Hn. apply Hfile. by rewrite Hperm, <- (sorted_perm (λ n, n) names2).
Qed.

Lemma get_migrations_listing_order_witness :
  let names := ["m20240320000002_b.py"; "__init__.py"; "m20240320000001_a.py";
                "types.py"; "m_notes.txt"; "m20240320000003_c.py"; "__pycache__"] in
  listdir sample_dir = Ok names ∧
  names ≡ₚ reverse names ∧
  get_migrations "/app/migrations" sample_dir =
  get_migrations "/app/migrations"
    {| listdir := Ok (reverse names); file := file sample_dir |}.
Proof.
  intros names.
  assert (listdir sample_dir = Ok names) as Hnames by reflexivity.
  assert (names ≡ₚ reverse names) as Hperm
    by (symmetry; apply reverse_Permutation).
  split; [exact Hnames|]. split; [exact Hperm|].
  exact (get_migrations_listing_order "/app/migrations" sample_dir
           {| listdir := Ok (reverse names); file := file sample_dir |}
           names (reverse names) Hnames eq_refl Hperm (λ n _, eq_refl)).
Defined.

Lemma executed_of_app (t1 t2 : list Discovery) :
  executed_of (t1 ++ t2) = executed_of t1 ++ executed_of t2.
Proof. apply omap_app. Qed.

Lemma load_files_executed_names (dir : string) (file : string → PyFile)
    (names : list string) (n : string) :
  n ∈ executed_of (load_files dir file names [] []).2 → n ∈ names.
Proof.
  unfold executed_of. intros (e & He & Hn)%list_elem_of_omap.
  destruct e as [name path|msg]; [|done]. injection Hn as <-.
  apply load_files_executes in He as (f & Hf & Hmf & _ & -> & _).
  by rewrite (module_name_back f Hmf).
Qed.

(** The loop when it raises: it stopped at the first migration file of the
    list that raises. *)
Lemma load_files_raises (dir : string) (file : string → PyFile) (names : list string)
    (e : exn) :
  (load_files dir file names [] []).1 = Raise e →
  ∃ pre filename post,
    names = pre ++ filename :: post ∧
    migration_file filename = true ∧
    file filename = ExecRaises e ∧
    Forall (λ n, migration_file n = true → ¬ raises (file n)) pre ∧
    (load_files dir file names [] []).2 =
      (load_files dir file pre [] []).2 ++
      [ExecModule (drop_last 3 filename) (path_join dir filename)].
Proof.
  induction names as [|n names IH]; [done|].
  rewrite load_files_cons.
  destruct (migration_file n) eqn:Hmf.
  - destruct (file n) as [|e'|o] eqn:Hfile; cbn [fst snd].
    + intros (pre & f & post & -> & Hmf' & Hfile' & Hpre & Hlog)%IH.
      exists (n :: pre), f, post. rewrite load_files_cons, Hmf, Hfile.
      repeat split; try done. constructor; [|done]. rewrite Hfile. by intros _ [].
    + intros [= ->]. exists [], n, names. by repeat split.
    + intros Hr.
      assert ((load_files dir file names [] []).1 = Raise e) as Hr'
        by by destruct (load_files dir file names [] []).1.
      apply IH in Hr' as (pre & f & post & -> & Hmf' & Hfile' & Hpre & Hlog).
      exists (n :: pre), f, post. rewrite load_files_cons, Hmf, Hfile. cbn [snd].
      repeat split; try done; [constructor; [|done]; rewrite Hfile; by intros _ []|].
      rewrite Hlog. simpl. by rewrite <- !app_assoc.
  - intros (pre & f & post & -> & Hmf' & Hfile' & Hpre & Hlog)%IH.
    exists (n :: pre), f, post. rewrite load_files_cons, Hmf.
    repeat split; try done. constructor; [|done]. rewrite Hmf. by intros [=].
Qed.

Lemma load_files_ok_inv (dir : string) (file : string → PyFile) (names : list string)
    (ms : list Migration) :
  (load_files dir file names [] []).1 = Ok ms →
  Forall (λ n, migration_file n = true → ¬ raises (file n)) names.
Proof.
  revert ms. induction names as [|n names IH]; intros ms; [by constructor|].
  rewrite load_files_cons.
  destruct (migration_file n) eqn:Hmf.
  - destruct (file n) as [|e|o] eqn:Hfile; cbn [fst]; [|done|].
    + intros Hr%IH. constructor; [|done]. rewrite Hfile. by intros _ [].
    + destruct (load_files dir file names [] []).1 as [l|] eqn:Hl; [|done].
      intros _. constructor; [rewrite Hfile; by intros _ []|]. by apply (IH l).
  - intros Hr%IH. constructor; [|done]. rewrite Hmf. by intros [=].
Qed.

(** X4. [get_migrations] raises exactly when [os.listdir] raises or some
    listed migration file raises while it is executed. In the first case
    the exception is that of [os.listdir] and no module is executed. In
    the second it is the file's exception as it is, for the first such file
    in order of name: that module is the last one executed, no file after
    it is touched, and the migrations loaded so far are lost. *)
Theorem get_migrations_raises (dir : string) (d : Directory) :
  match (get_migrations dir d).1 with
  | Raise e =>
      (listdir d = Raise e ∧ (get_migrations dir d).2 = []) ∨
      ∃ names filename,
        listdir d = Ok names ∧
        filename ∈ names ∧
        migration_file filename = true ∧
        file d filename = ExecRaises e ∧
        last (get_migrations dir d).2 =
          Some (ExecModule (drop_last 3 filename) (path_join dir filename)) ∧
        (∀ n, n ∈ executed_of (get_migrations dir d).2 → Str.le n filename) ∧
        (∀ n, n ∈ names → migration_file n = true → raises (file d n) →
              Str.le filename n)
  | Ok _ =>
      ∃ names,
        listdir d = Ok names ∧
        ∀ n, n ∈ names → migration_file n = true → ¬ raises (file d n)
  end.
Proof.
  unfold get_migrations. destruct (listdir d) as [names|e0]; [|by left].
  pose proof (sorted_perm (λ n : string, n) names) as Hperm.
  pose proof (sorted_ascending (λ n : string, n) names) as Hasc.
  unfold ascending in Hasc.
  destruct (load_files dir (file d) _ [] []).1 as [ms|e] eqn:Hr.
  - exists names. split; [done|].
    intros n Hn Hmf Hraise. rewrite <- Hperm in Hn.
    apply load_files_ok_inv in Hr. rewrite Forall_forall in Hr.
    by apply (Hr n Hn Hmf).
  - right.
    apply load_files_raises in Hr as (pre & f & post & Hsplit & Hmf & Hfile & Hpre & Hlog).
    rewrite Hsplit in Hperm, Hasc. exists names, f. split; [done|].
    split; [rewrite <- Hperm; apply elem_of_app; right; by apply elem_of_cons; left|].
    split; [done|]. split; [done|].
    rewrite Hlog. split; [apply last_snoc|].
    apply StronglySorted_app in Hasc as (Hbefore & _ & Hafter).
    apply StronglySorted_inv in Hafter as [_ Hafter].
    split.
    + intros n. rewrite executed_of_app. intros [Hn|Hn]%elem_of_app.
      * apply load_files_executed_names in Hn.
        apply (Hbefore n f Hn). by apply elem_of_cons; left.
      * simpl in Hn. apply list_elem_of_singleton in Hn as ->.
        rewrite (module_name_back f Hmf). apply StrFacts.le_refl.
    + intros n Hn Hmfn Hraise. rewrite <- Hperm in Hn.
      apply elem_of_app in Hn as [Hn|Hn].
      * exfalso. rewrite Forall_forall in Hpre. by apply (Hpre n Hn Hmfn).
      * apply elem_of_cons in Hn as [->|Hn]; [apply StrFacts.le_refl|].
        rewrite Forall_forall in Hafter. by apply Hafter.
Qed.

(** No directory at the path: [os.listdir] raises and so does
    [get_migrations], before any file is looked at. *)
Example get_migrations_missing_dir :
  get_migrations "migrations" missing_dir =
    (Raise (FileNotFoundError "[Errno 2] No such file or directory: 'migrations'"), []).
Proof. reflexivity. Qed.

(** ** More on the ordering check *)

Lemma validate_empty (ms : list Migration) : validate_migration_order ms ∅ = Ok tt.
Proof. unfold validate_migration_order. by destruct (decide _). Qed.

(** X5. The ordering check accepts a collection exactly when every
    candidate that is not applied has an identifier strictly above every
    applied one; and what it raises is always the [MigrationError] naming
    the greatest applied identifier. *)
Theorem validate_migration_order_above (ms : list Migration) (applied : gset string) :
  (validate_migration_order ms applied = Ok tt ↔
   ∀ m x, m ∈ ms → id m ∉ applied → x ∈ applied → Str.lt x (id m)) ∧
  (∀ e, validate_migration_order ms applied = Raise e →
        ∃ mx, greatest mx applied ∧
          e = MigrationError
                ("Found new migration(s) with ID lower than latest applied migration "
                 +:+ mx) None).
Proof.
  destruct (decide (applied = ∅)) as [->|Hne].
  { rewrite validate_empty. split; [|done]. split; [|done].
    intros _ m x _ _ Hx. by apply not_elem_of_empty in Hx. }
  destruct (py_max_greatest applied Hne) as (mx & _ & Hmx).
  rewrite (validate_nonempty ms applied mx Hmx).
  destruct (any _ _) eqn:Hany.
  - split.
    + split; [done|]. intros Habove. exfalso.
      apply any_true in Hany as (m & [Hnew Hm]%list_elem_of_filter & Hlt).
      destruct Hmx as [Hin _].
      apply (StrFacts.lt_irrefl mx). eapply StrFacts.lt_le_trans; [by apply (Habove m)|].
      by apply StrFacts.lt_le.
    + intros e [= <-]. by exists mx.
  - split; [|done]. split; [|done].
    intros _ m x Hm Hnew Hx. apply StrFacts.le_neq_lt.
    + destruct Hmx as [_ Hle]. eapply StrFacts.le_trans; [by apply Hle|].
      apply StrFacts.ltb_false_le.
      destruct (Str.ltb (id m) mx) eqn:Hlt; [|done].
      assert (any (λ m, Str.ltb (id m) mx) (filter (λ m, id m ∉ applied) ms) = true) as Ht.
      { apply any_true. exists m. split; [|done]. by apply list_elem_of_filter. }
      congruence.
    + by intros ->.
Qed.

Lemma validate_ok_above (ms : list Migration) (applied : gset string) (m : Migration)
    (x : string) :
  validate_migration_order ms applied = Ok tt →
  m ∈ ms → id m ∉ applied → x ∈ applied → Str.lt x (id m).
Proof.
  destruct (decide (applied = ∅)) as [->|Hne].
  { intros _ _ _ Hx. by apply not_elem_of_empty in Hx. }
  destruct (py_max_greatest applied Hne) as (mx & _ & Hmx).
  rewrite (validate_nonempty ms applied mx Hmx).
  destruct (any _ _) eqn:Hany; [done|]. intros _ Hm Hnew Hx.
  apply StrFacts.le_neq_lt; [|by intros ->].
  destruct Hmx as [_ Hle]. eapply StrFacts.le_trans; [by apply Hle|].
  apply StrFacts.ltb_false_le.
  destruct (Str.ltb (id m) mx) eqn:Hlt; [|done].
  assert (any (λ m, Str.ltb (id m) mx) (filter (λ m, id m ∉ applied) ms) = true) as Ht.
  { apply any_true. exists m. split; [|done]. by apply list_elem_of_filter. }
  congruence.
Qed.

Lemma validate_raises_migration_error (ms : list Migration) (applied : gset string)
    (e : exn) :
  validate_migration_order ms applied = Raise e → ∃ msg, e = MigrationError msg None.
Proof.
  destruct (decide (applied = ∅)) as [->|Hne]; [by rewrite validate_empty|].
  destruct (py_max_greatest applied Hne) as (mx & _ & Hmx).
  rewrite (validate_nonempty ms applied mx Hmx).
  destruct (any _ _); [|done]. intros [= <-]. by eexists.
Qed.

(** ** More on one migration *)

(** X6. [apply_migration] returns normally exactly when the connection has
    no transaction open, the procedure completes, the store exists and the
    identifier is not recorded in it. *)
Theorem apply_migration_succeeds_iff (m : Migration) (w : World) :
  (apply_migration m w).1 = Ok tt ↔
  txn (con w) = None ∧
  (in_transaction m (tables (committed (con w)))).2 = None ∧
  ∃ rows, _migrations (committed (con w)) = Some rows ∧ id m ∉ row_id <$> rows.
Proof.
  split.
  - destruct (txn (con w)) as [d|] eqn:Htxn.
    { by rewrite (apply_migration_busy m w d Htxn). }
    destruct (apply_migration m w) as [r w1] eqn:Heq. cbn [fst]. intros ->.
    destruct (apply_migration_ok m w w1 Htxn Heq) as (t & rows & Hrun & Hrows & Hnew & _).
    split; [done|]. rewrite Hrun. split; [done|]. by exists rows.
  - intros (Hidle & Hrun & rows & Hrows & Hnew).
    destruct (in_transaction m (tables (committed (con w)))) as [t r] eqn:Hrun'.
    simpl in Hrun. subst r.
    by rewrite (apply_migration_commits m w t [] _ Hidle Hrun'
                  (insert_fresh (id m) (clock (con w))
                     {| tables := t; _migrations := _migrations (committed (con w)) |}
                     rows Hrows Hnew)).
Qed.

(** X7. On an idle connection, when the procedure completes and
    [apply_migration] raises all the same, the procedure was invoked, no
    row was added, no transaction is left open, and what failed is the
    insert: the store does not exist, or the identifier is recorded
    already. When the procedure leaves the transaction alone, the
    connection is as before the call and the error is the apply failure
    with the insert's error as cause; when the procedure has ended the
    transaction itself, the error may instead be that of a rollback without
    a transaction. *)
Theorem apply_migration_insert_failure
    (m : Migration) (w w' : World) (e : exn) (t : list string) :
  idle w →
  in_transaction m (tables (committed (con w))) = (t, None) →
  apply_migration m w = (Raise e, w') →
  runs_of (trace w') = runs_of (trace w) ++ [id m] ∧
  txn (con w') = None ∧
  _migrations (committed (con w')) = _migrations (committed (con w)) ∧
  ∃ cause,
    ((_migrations (committed (con w)) = None ∧
      cause = CatalogException "Table with name _migrations does not exist!") ∨
     (id m ∈ applied_ids (committed (con w)) ∧
      cause = ConstraintException
                ("Duplicate key " +:+ id m +:+ " violates primary key constraint"))) ∧
    (e = apply_failure m cause ∨
     e = TransactionException "cannot rollback - no transaction is active") ∧
    (only_statements m → con w' = con w ∧ e = apply_failure m cause).
Proof.
  intros Hidle Hrun Happ.
  destruct (apply_migration_raises_runs m w w' e Hidle Happ)
    as (_ & _ & _ & evs & Htr & Hevs).
  destruct (apply_migration_raises m w w' e Hidle Happ)
    as (Hidle' & _ & Hrec & cause & calls & Hfail & _ & Hhow & Honly).
  split; [by rewrite Htr, runs_of_app, Hevs|].
  split; [done|]. split; [done|].
  exists cause. split.
  { destruct Hfail as [(t' & Hrun')|(t' & d' & Hrun' & Hins)]; [congruence|].
    apply insert_raises in Hins as [_ [[Hnone ->]|[Hdup ->]]]; [by left|by right]. }
  split; [destruct Hhow as [[-> _]|[-> _]]; by eauto|].
  intros Hm. by destruct (Honly Hm) as (? & ? & _).
Qed.

Lemma apply_migration_insert_failure_witness :
  idle applied2 ∧
  in_transaction m2_again (tables (committed (con applied2))) = (["test2"; "test2b"], None) ∧
  only_statements m2_again ∧
  apply_migration m2_again applied2 =
    (Raise (apply_failure m2_again
              (ConstraintException
                 "Duplicate key 20240320000002 violates primary key constraint")),
     (apply_migration m2_again applied2).2) ∧
  con (apply_migration m2_again applied2).2 = con applied2.
Proof.
  assert (idle applied2) as Hidle by reflexivity.
  assert (in_transaction m2_again (tables (committed (con applied2))) =
            (["test2"; "test2b"], None))
    as Hrun by (vm_compute; reflexivity).
  assert (only_statements m2_again) as Hst by (repeat constructor).
  assert (apply_migration m2_again applied2 =
            (Raise (apply_failure m2_again
                      (ConstraintException
                         "Duplicate key 20240320000002 violates primary key constraint")),
             (apply_migration m2_again applied2).2)) as Happ by (vm_compute; reflexivity).
  split; [exact Hidle|]. split; [exact Hrun|]. split; [exact Hst|]. split; [exact Happ|].
  destruct (apply_migration_insert_failure _ _ _ _ _ Hidle Hrun Happ)
    as (_ & _ & _ & cause & _ & _ & Honly).
  exact (proj1 (Honly Hst)).
Defined.

(** The other outcome: [m2_commits] has committed its table when the
    insert raises on the key, and the handler's [rollback] raises. *)
Example apply_migration_insert_failure_committed :
  in_transaction m2_commits (tables (committed (con applied2))) = (["test2"; "leak"], None) ∧
  (apply_migration m2_commits applied2).1 =
    Raise (TransactionException "cannot rollback - no transaction is active") ∧
  committed (con (apply_migration m2_commits applied2).2) =
    {| tables := ["test2"; "leak"];
       _migrations := Some [{| row_id := "20240320000002"; applied_at := 1710000000 |}] |}.
Proof. vm_compute. done. Qed.

(** X8. On a connection that has a transaction open, [apply_migration]
    does not invoke the procedure: [begin] raises, the handler rolls the
    open transaction back, so that what it held is gone, and
    [MigrationError] is raised with the connection's error as cause. *)
Theorem apply_migration_in_transaction (m : Migration) (w : World) (d : DB) :
  txn (con w) = Some d →
  ∃ w' e,
    apply_migration m w = (Raise e, w') ∧
    e = MigrationError
          ("Migration " +:+ id m
           +:+ " failed: cannot start a transaction within a transaction")
          (Some (TransactionException "cannot start a transaction within a transaction")) ∧
    runs_of (trace w') = runs_of (trace w) ∧
    committed (con w') = committed (con w) ∧
    txn (con w') = None ∧
    visible (con w') = committed (con w).
Proof.
  intros Hbusy. rewrite (apply_migration_busy m w d Hbusy). cbv zeta.
  eexists _, _. split; [done|]. cbn [con trace committed txn visible].
  repeat split; try done.
  rewrite runs_of_app. simpl. by rewrite app_nil_r.
Qed.

Lemma apply_migration_in_transaction_witness :
  let w := (begin ready).2 in
  txn (con w) = Some (committed (con ready)) ∧
  ∃ w', (apply_migration m1 w).2 = w' ∧ txn (con w') = None ∧ runs_of (trace w') = [].
Proof.
  cbv zeta.
  assert (txn (con (begin ready).2) = Some (committed (con ready))) as Hbusy by reflexivity.
  split; [exact Hbusy|].
  destruct (apply_migration_in_transaction m1 _ _ Hbusy)
    as (w' & e & Heq & _ & Hruns & _ & Htxn & _).
  exists w'. rewrite Heq. split; [reflexivity|]. split; [exact Htxn|exact Hruns].
Defined.

(** ** More on a run *)

Lemma validate_all_applied (ms : list Migration) (applied : gset string) :
  (∀ m, m ∈ ms → id m ∈ applied) → validate_migration_order ms applied = Ok tt.
Proof.
  intros Hall. destruct (decide (applied = ∅)) as [->|Hne]; [apply validate_empty|].
  destruct (py_max_greatest applied Hne) as (mx & _ & Hmx).
  rewrite (validate_nonempty ms applied mx Hmx).
  rewrite (filter_none (λ m, id m ∉ applied) ms); [done|].
  apply Forall_forall. intros m Hm Hnew. by apply Hnew, Hall.
Qed.

Lemma pending_all_applied (ms : list Migration) (applied : gset string) :
  (∀ m, m ∈ ms → id m ∈ applied) → pending ms applied = [].
Proof.
  intros Hall. unfold pending. apply filter_none.
  apply Forall_forall. intros m Hm Hnew. apply Hnew, Hall.
  by rewrite <- (sorted_perm id ms).
Qed.

Lemma run_migrations_nothing_pending (ms : list Migration) (w : World) :
  validate_migration_order ms (applied_set w) = Ok tt →
  pending ms (applied_set w) = [] →
  run_migrations ms w = (Ok tt, prelude w).
Proof. intros Hval Hpend. by rewrite run_migrations_unfold, Hval, Hpend. Qed.

Lemma candidate_applied_or_pending (ms : list Migration) (applied : gset string)
    (m : Migration) :
  m ∈ ms → id m ∈ applied ∨ m ∈ pending ms applied.
Proof.
  intros Hm. destruct (decide (id m ∈ applied)) as [|Hnew]; [by left|right].
  apply list_elem_of_filter. split; [done|]. by rewrite (sorted_perm id ms).
Qed.

(** X10. When [run_migrations] returns normally on an idle connection,
    every candidate is recorded, the rows added are those of the pending
    migrations in ascending order of identifier, after the rows that were
    there, the tables are what the pending procedures made of them in that
    order, and no transaction is open. *)
Theorem run_migrations_records_all (ms : list Migration) (w w' : World) :
  idle w →
  run_migrations ms w = (Ok tt, w') →
  (∀ m, m ∈ ms → id m ∈ applied_ids (committed (con w'))) ∧
  applied_ids (committed (con w')) =
    applied_ids (committed (con w)) ++ (id <$> pending ms (applied_set w)) ∧
  tables (committed (con w')) =
    effect (pending ms (applied_set w)) (tables (committed (con w))) ∧
  idle w'.
Proof.
  intros Hidle Hrun.
  destruct (run_migrations_idle ms w Hidle)
    as [(e & _ & Heq)|[(_ & Hnd & Heq)|(_ & pre & m & post & e & w3 & _ & _ & _ & Heq)]];
    rewrite Heq in Hrun; try done.
  injection Hrun as <-. cbn [con committed]. rewrite applied_ids_applied_db.
  split; [|done].
  intros m Hm. apply elem_of_app.
  destruct (candidate_applied_or_pending ms (applied_set w) m Hm) as [Happ|Hpend].
  - left. rewrite (applied_set_idle w Hidle) in Happ. by apply elem_of_list_to_set in Happ.
  - right. by apply list_elem_of_fmap_2.
Qed.

Lemma run_migrations_records_all_witness :
  idle fresh ∧
  run_migrations [m2; m1] fresh = (Ok tt, (run_migrations [m2; m1] fresh).2) ∧
  applied_ids (committed (con (run_migrations [m2; m1] fresh).2)) =
    ["20240320000001"; "20240320000002"].
Proof.
  assert (idle fresh) as Hidle by reflexivity.
  assert (run_migrations [m2; m1] fresh = (Ok tt, (run_migrations [m2; m1] fresh).2))
    as Hrun by (vm_compute; reflexivity).
  split; [exact Hidle|]. split; [exact Hrun|].
  destruct (run_migrations_records_all _ _ _ Hidle Hrun) as (_ & Hids & _).
  rewrite Hids. vm_compute. reflexivity.
Defined.

(** X11. A second run of a collection that has just been applied on an
    idle connection returns normally, invokes no procedure and leaves the
    connection as it is: its only calls are the two statements on the
    store. *)
Theorem run_migrations_again (ms : list Migration) (w w1 : World) :
  idle w →
  run_migrations ms w = (Ok tt, w1) →
  run_migrations ms w1 =
    (Ok tt,
     {| con := con w1;
        trace := trace w1 ++
          [EExecute CreateMigrationsTable; EExecute SelectMigrationIds] |}).
Proof.
  intros Hidle Hrun.
  destruct (run_migrations_idle ms w Hidle)
    as [(e & _ & Heq)|[(_ & Hnd & Heq)|(_ & pre & m & post & e & w3 & _ & _ & _ & Heq)]];
    rewrite Heq in Hrun; try done.
  injection Hrun as <-.
  set (w1 := {| con := _; trace := _ |}).
  assert (idle w1) as Hidle1 by done.
  assert (∀ m, m ∈ ms → id m ∈ applied_set w1) as Hall.
  { intros m Hm. rewrite (applied_set_idle w1 Hidle1). apply elem_of_list_to_set.
    unfold w1. cbn [con committed]. rewrite applied_ids_applied_db. apply elem_of_app.
    destruct (candidate_applied_or_pending ms (applied_set w) m Hm) as [Happ|Hpend].
    - left. rewrite (applied_set_idle w Hidle) in Happ.
      by apply elem_of_list_to_set in Happ.
    - right. by apply list_elem_of_fmap_2. }
  rewrite (run_migrations_nothing_pending ms w1
             (validate_all_applied ms _ Hall) (pending_all_applied ms _ Hall)).
  reflexivity.
Qed.

Lemma run_migrations_again_witness :
  idle fresh ∧
  run_migrations [m2; m1] fresh = (Ok tt, (run_migrations [m2; m1] fresh).2) ∧
  con (run_migrations [m2; m1] (run_migrations [m2; m1] fresh).2).2 =
  con (run_migrations [m2; m1] fresh).2.
Proof.
  assert (idle fresh) as Hidle by reflexivity.
  assert (run_migrations [m2; m1] fresh = (Ok tt, (run_migrations [m2; m1] fresh).2))
    as Hrun by (vm_compute; reflexivity).
  split; [exact Hidle|]. split; [exact Hrun|].
  rewrite (run_migrations_again _ _ _ Hidle Hrun). reflexivity.
Defined.

Lemma any_perm {A : Type} (p : A → bool) (l k : list A) :
  l ≡ₚ k → any p l = any p k.
Proof.
  intros Hperm.
  destruct (any p l) eqn:Hl, (any p k) eqn:Hk; try done.
  - apply any_true in Hl as (x & Hx & Hp).
    assert (any p k = true) as Ht; [|congruence].
    apply any_true. exists x. by rewrite <- Hperm.
  - apply any_true in Hk as (x & Hx & Hp).
    assert (any p l = true) as Ht; [|congruence].
    apply any_true. exists x. by rewrite Hperm.
Qed.

Lemma validate_perm (ms ms' : list Migration) (applied : gset string) :
  ms ≡ₚ ms' → validate_migration_order ms applied = validate_migration_order ms' applied.
Proof.
  intros Hperm. destruct (decide (applied = ∅)) as [->|Hne].
  { by rewrite !validate_empty. }
  destruct (py_max_greatest applied Hne) as (mx & _ & Hmx).
  rewrite !(validate_nonempty _ applied mx Hmx).
  rewrite (any_perm _ (filter (λ m, id m ∉ applied) ms)
             (filter (λ m, id m ∉ applied) ms')); [done|].
  by rewrite Hperm.
Qed.

Lemma NoDup_fmap_inj_on {A B : Type} (f : A → B) (l : list A) (x y : A) :
  NoDup (f <$> l) → x ∈ l → y ∈ l → f x = f y → x = y.
Proof.
  induction l as [|z l IH]; [intros _ Hx; inversion Hx|].
  rewrite fmap_cons, NoDup_cons.
  intros [Hz Hnd] [->|Hx]%elem_of_cons [->|Hy]%elem_of_cons Hf; try done.
  - exfalso. apply Hz. rewrite Hf. by apply list_elem_of_fmap_2.
  - exfalso. apply Hz. rewrite <- Hf. by apply list_elem_of_fmap_2.
  - by apply IH.
Qed.

Lemma sorted_perm_eq (ms ms' : list Migration) :
  ms ≡ₚ ms' → NoDup (id <$> ms) → sorted id ms = sorted id ms'.
Proof.
  intros Hperm Hnd.
  apply (StronglySorted_unique_strong (λ a b, Str.le (id a) (id b))).
  - intros x y Hx Hy Hxy Hyx.
    rewrite (sorted_perm id ms) in Hx. rewrite (sorted_perm id ms'), <- Hperm in Hy.
    apply (NoDup_fmap_inj_on id ms x y Hnd Hx Hy). by apply StrFacts.le_antisym.
  - apply sorted_ascending.
  - apply sorted_ascending.
  - by rewrite !sorted_perm.
Qed.

(** X12. When the identifiers of a collection are distinct, a run does not
    depend on the order in which the collection lists its migrations: the
    result, the calls and the connection afterwards are the same. *)
Theorem run_migrations_input_order (ms ms' : list Migration) (w : World) :
  ms ≡ₚ ms' →
  NoDup (id <$> ms) →
  run_migrations ms w = run_migrations ms' w.
Proof.
  intros Hperm Hnd. rewrite !run_migrations_unfold.
  rewrite (validate_perm ms ms' _ Hperm). unfold pending.
  by rewrite (sorted_perm_eq ms ms' Hperm Hnd).
Qed.

Lemma run_migrations_input_order_witness :
  [m3; m1; m2] ≡ₚ [m1; m2; m3] ∧
  NoDup (id <$> [m3; m1; m2]) ∧
  run_migrations [m3; m1; m2] fresh = run_migrations [m1; m2; m3] fresh.
Proof.
  assert ([m3; m1; m2] ≡ₚ [m1; m2; m3]) as Hperm.
  { change ([m3] ++ [m1; m2] ≡ₚ [m1; m2] ++ [m3]). apply Permutation_app_comm. }
  assert (NoDup (id <$> [m3; m1; m2])) as Hnd.
  { refine (bool_decide_unpack (NoDup (id <$> [m3; m1; m2])) _). vm_compute. exact I. }
  split; [exact Hperm|]. split; [exact Hnd|].
  exact (run_migrations_input_order _ _ fresh Hperm Hnd).
Defined.

Lemma strict_NoDup (l : list string) : StronglySorted Str.lt l → NoDup l.
Proof.
  induction 1 as [|x l Hl IH Hx]; constructor; [|done].
  intros Hin. rewrite Forall_forall in Hx. by apply (StrFacts.lt_irrefl x), Hx.
Qed.

Lemma strict_app (l k : list string) :
  StronglySorted Str.lt l → StronglySorted Str.le k → NoDup k →
  (∀ x y, x ∈ l → y ∈ k → Str.lt x y) →
  StronglySorted Str.lt (l ++ k).
Proof.
  intros Hl Hk Hnd Hlk. apply StronglySorted_app_2; [done..|].
  by apply ascending_NoDup_strict.
Qed.

(** One run keeps the store strictly ascending in the order of insertion. *)
Lemma run_migrations_keeps_ascending (ms : list Migration) (w : World) :
  idle w →
  StronglySorted Str.lt (applied_ids (committed (con w))) →
  idle (run_migrations ms w).2 ∧
  StronglySorted Str.lt (applied_ids (committed (con (run_migrations ms w).2))) ∧
  applied_ids (committed (con w))
    `prefix_of` applied_ids (committed (con (run_migrations ms w).2)).
Proof.
  intros Hidle Hasc.
  assert (∀ l k, pending ms (applied_set w) = l ++ k →
                 validate_migration_order ms (applied_set w) = Ok tt →
                 NoDup (id <$> l) →
                 StronglySorted Str.lt (applied_ids (committed (con w)) ++ (id <$> l)))
    as Hgrow.
  { intros l k Hsplit Hval Hnd. apply strict_app; [done| |done|].
    - apply (StronglySorted_prefix _ _ (id <$> pending ms (applied_set w)));
        [|apply pending_ascending].
      exists (id <$> k). by rewrite Hsplit, fmap_app.
    - intros x y Hx (m & -> & Hm)%list_elem_of_fmap.
      assert (m ∈ pending ms (applied_set w)) as Hp
        by (rewrite Hsplit; apply elem_of_app; by left).
      apply list_elem_of_filter in Hp as [Hnew Hin].
      rewrite (sorted_perm id ms) in Hin.
      apply (validate_ok_above ms (applied_set w)); try done.
      by apply not_in_applied_set. }
  destruct (run_migrations_idle ms w Hidle)
    as [(e & _ & Heq)|[(Hval & Hnd & Heq)|(Hval & pre & m & post & e & w3 & Hsplit
                                            & Hnd & Happ & Heq)]];
    rewrite Heq; cbn [snd con committed].
  - split; [done|]. rewrite applied_ids_ensure_store. by split.
  - split; [done|]. rewrite applied_ids_applied_db. split; [|by eexists].
    apply (Hgrow _ []); [by rewrite app_nil_r|done..].
  - apply apply_migration_raises_runs in Happ as (Hidle3 & _ & Hids & _); [|done].
    cbn [con committed] in Hids. split; [done|].
    rewrite Hids, applied_ids_applied_db. split; [|by eexists].
    by apply (Hgrow _ (m :: post)).
Qed.

(** X13. Runs keep the store in order: on a connection that is idle and
    whose recorded identifiers are strictly ascending in the order of
    insertion, any sequence of runs, whatever each returns or raises, ends
    idle with the recorded identifiers strictly ascending again, the ones
    that were there first. *)
Theorem run_many_keeps_ascending (batches : list (list Migration)) (w : World) :
  idle w →
  StronglySorted Str.lt (applied_ids (committed (con w))) →
  idle (run_many batches w) ∧
  StronglySorted Str.lt (applied_ids (committed (con (run_many batches w)))) ∧
  applied_ids (committed (con w))
    `prefix_of` applied_ids (committed (con (run_many batches w))).
Proof.
  revert w. induction batches as [|ms batches IH]; intros w Hidle Hasc; [done|].
  cbn [run_many].
  destruct (run_migrations_keeps_ascending ms w Hidle Hasc) as (Hidle1 & Hasc1 & Hpre1).
  destruct (IH _ Hidle1 Hasc1) as (Hidle2 & Hasc2 & Hpre2).
  split; [done|]. split; [done|]. by etrans.
Qed.

Lemma run_many_keeps_ascending_witness :
  idle applied2 ∧
  StronglySorted Str.lt (applied_ids (committed (con applied2))) ∧
  StronglySorted Str.lt
    (applied_ids (committed (con (run_many [[m1; m2]; [m3; m2]; [m2_bad]] applied2)))).
Proof.
  assert (idle applied2) as Hidle by reflexivity.
  assert (StronglySorted Str.lt (applied_ids (committed (con applied2)))) as Hasc
    by repeat constructor.
  split; [exact Hidle|]. split; [exact Hasc|].
  exact (proj1 (proj2 (run_many_keeps_ascending _ applied2 Hidle Hasc))).
Defined.



(** X15. On a connection that has a transaction open, [run_migrations]
    invokes no procedure and commits nothing. It returns normally exactly
    when the ordering check passes and nothing is pending, leaving the
    transaction open; when something is pending, the first
    [apply_migration] rolls the open transaction back. *)
Theorem run_migrations_in_transaction (ms : list Migration) (w : World) (d : DB) :
  txn (con w) = Some d →
  let '(r, w') := run_migrations ms w in
  (∃ delta, trace w' = trace w ++ delta ∧ runs_of delta = []) ∧
  committed (con w') = committed (con w) ∧
  (r = Ok tt ↔
   validate_migration_order ms (applied_set w) = Ok tt ∧ pending ms (applied_set w) = []) ∧
  (r = Ok tt → txn (con w') = Some (ensure_store d)) ∧
  (validate_migration_order ms (applied_set w) = Ok tt →
   pending ms (applied_set w) ≠ [] → txn (con w') = None).
Proof.
  intros Hbusy. destruct (prelude_busy w d Hbusy) as [Htxn Hcm].
  rewrite run_migrations_unfold.
  destruct (validate_migration_order ms (applied_set w)) as [[]|e].
  - destruct (pending ms (applied_set w)) as [|m l].
    + cbn [for_each]. unfold mret, M_ret.
      split; [by exists [EExecute CreateMigrationsTable; EExecute SelectMigrationIds]|].
      repeat split; try done.
    + cbn [for_each]. unfold mbind, M_bind.
      rewrite (apply_migration_busy m (prelude w) _ Htxn). cbv zeta.
      cbn [con trace committed txn]. split.
      { eexists ([EExecute CreateMigrationsTable; EExecute SelectMigrationIds] ++
                 [ELog INFO _; EBegin; ERollback; ELog ERROR _] ++ [ELog ERROR _]).
        split; [|done]. unfold prelude. cbn [trace]. by rewrite <- !app_assoc. }
      repeat split; try done. by intros [_ [=]].
  - cbn [con trace committed txn]. split.
    { eexists ([EExecute CreateMigrationsTable; EExecute SelectMigrationIds] ++
               [ELog ERROR _]).
      split; [|done]. unfold prelude. cbn [trace]. by rewrite <- !app_assoc. }
    repeat split; try done. by intros [[=] _].
Qed.

Lemma run_migrations_in_transaction_witness :
  txn (con (begin ready).2) = Some (committed (con ready)) ∧
  committed (con (run_migrations [m1] (begin ready).2).2) = committed (con ready) ∧
  txn (con (run_migrations [m1] (begin ready).2).2) = None.
Proof.
  assert (txn (con (begin ready).2) = Some (committed (con ready))) as Hbusy by reflexivity.
  split; [exact Hbusy|].
  pose proof (run_migrations_in_transaction [m1] _ _ Hbusy) as H.
  destruct (run_migrations [m1] (begin ready).2) as [r w'] eqn:Hrun.
  destruct H as (_ & Hcm & _ & _ & Hpend).
  split; [exact Hcm|]. apply Hpend; [vm_compute; reflexivity|].
  vm_compute. discriminate.
Defined.





(** ** The store, created and read *)

(** X17. [get_applied_migrations] raises the connection's error when the
    store does not exist, leaving the connection as it is; right after
    [init_migrations_table] it never raises, and returns in ascending order
    the identifiers that were recorded before. *)
Theorem get_applied_migrations_after_init (w : World) :
  (_migrations (visible (con w)) = None →
   get_applied_migrations w =
     (Raise (CatalogException "Table with name _migrations does not exist!"),
      {| con := con w; trace := trace w ++ [EExecute SelectMigrationIds] |})) ∧
  ∃ ids,
    (get_applied_migrations (init_migrations_table w).2).1 = Ok ids ∧
    ids ≡ₚ applied_ids (visible (con w)) ∧
    StronglySorted Str.le ids.
Proof.
  split.
  - intros Hnone. by rewrite get_applied_migrations_spec, Hnone.
  - rewrite get_applied_migrations_spec, init_migrations_table_spec. cbn [fst snd con].
    rewrite visible_set_visible, ensure_store_exists. eexists. split; [done|].
    split.
    + rewrite sorted_perm. unfold applied_ids.
      by destruct (_migrations (visible (con w))).
    + exact (sorted_ascending (λ i : string, i) _).
Qed.
